(** * osmium/index/relations_map.hpp

    A shallow embedding of libosmium's relations map: the sorted vector
    multimap [detail::flat_map], the accumulating [RelationsMapStash] and the
    frozen [RelationsMapIndex] / [RelationsMapIndexes] built from it, followed
    by the properties of the accumulate / freeze / query life cycle.

    Identifiers are modelled as [Z].  The public identifier type
    [osmium::unsigned_object_id_type] is a 64-bit unsigned integer; the
    internal storage type of both fields of an entry is [uint32_t], and the
    conversion [static_cast<uint32_t>] is written out as reduction modulo
    [2^32]. *)

From Stdlib Require Import ZArith Lia String.
From stdpp Require Import base tactics decidable numbers list sorting.

Local Open Scope Z_scope.

(** ** Integer widths *)

Definition uint32_modulus : Z := 2 ^ 32.
Definition uint64_modulus : Z := 2 ^ 64.

Definition is_uint32 (x : Z) : Prop := 0 ≤ x < uint32_modulus.

(** [osmium::unsigned_object_id_type] (declared in osmium/osm/types.hpp, which
    is not part of this file) is [uint64_t]. *)
Definition is_unsigned_object_id (x : Z) : Prop := 0 ≤ x < uint64_modulus.

(** [static_cast<uint32_t>(x)] for an unsigned [x]: the value modulo [2^32]. *)
Definition static_cast_uint32 (x : Z) : Z := x mod uint32_modulus.

(** ** The algorithms of <algorithm> used by the map

    These are the C++ standard library's, modelled on a vector seen as a
    list, iterators being positions counted from [begin()]. *)
Module std.
Section algorithms.
Context {A : Type}.

(** The order in which a merge step takes its elements when the comparison
    object is [comp]: [x] may stay in front of [y] unless [comp y x]. *)
Definition not_after (comp : A → A → bool) : relation A :=
  λ x y, comp y x = false.

#[global] Instance not_after_dec (comp : A → A → bool) :
  RelDecision (not_after comp) :=
  λ x y, decide (comp y x = false).

(** [std::sort(first, last)] with comparison [comp].  The standard leaves the
    algorithm open and the relative order of equivalent elements unspecified;
    a merge sort stands for it.  For the entries sorted in this file
    equivalent elements are equal, so every conforming sort returns the same
    vector (lemma [sort_determined] below). *)
Definition sort (comp : A → A → bool) (l : list A) : list A :=
  merge_sort (not_after comp) l.

(** The loop of [std::unique]: [prev] is the element last kept, and an
    element is kept when it does not compare equal to [prev]. *)
Fixpoint unique_from (eqb : A → A → bool) (prev : A) (l : list A) : list A :=
  match l with
  | [] => []
  | y :: l' =>
      if eqb prev y then unique_from eqb prev l'
      else y :: unique_from eqb y l'
  end.

(** [std::unique(first, last)] followed by [erase(result, last)]: the kept
    elements, in order. *)
Definition unique (eqb : A → A → bool) (l : list A) : list A :=
  match l with
  | [] => []
  | x :: l' => x :: unique_from eqb x l'
  end.

(** The bisection loop shared by [std::lower_bound] and [std::upper_bound]:
<<
      while (len > 0) {
          half = len >> 1;  middle = first + half;
          if (pred(middle[0])) { first = middle + 1; len = len - half - 1; }
          else               { len = half; }
      }
      return first;
>>
    [fuel] bounds the number of iterations; [len] itself is enough, since
    every iteration makes [len] smaller. *)
Fixpoint bisect (pred : A → bool) (l : list A) (fuel : nat)
    (first len : nat) : nat :=
  match fuel with
  | O => first
  | S fuel' =>
      match len with
      | O => first
      | S _ =>
          let half := Nat.div2 len in
          let middle := (first + half)%nat in
          match l !! middle with
          | Some x =>
              if pred x
              then bisect pred l fuel' (S middle) (len - half - 1)%nat
              else bisect pred l fuel' first half
          | None => first
          end
      end
  end.

(** [std::lower_bound(first, last, val, comp)]: steps right while
    [comp] holds of the middle element and [val]. *)
Definition lower_bound (l : list A) (val : A) (comp : A → A → bool) : nat :=
  bisect (λ x, comp x val) l (length l) 0%nat (length l).

(** [std::upper_bound(first, last, val, comp)]: steps right while
    [comp] does not hold of [val] and the middle element. *)
Definition upper_bound (l : list A) (val : A) (comp : A → A → bool) : nat :=
  bisect (λ x, negb (comp val x)) l (length l) 0%nat (length l).

(** [std::equal_range]: the pair of [lower_bound] and [upper_bound]. *)
Definition equal_range (l : list A) (val : A) (comp : A → A → bool)
    : nat * nat :=
  (lower_bound l val comp, upper_bound l val comp).

End algorithms.
End std.

(** ** detail::flat_map<TKey, uint32_t, TValue, uint32_t> *)
Module flat_map.

(** [struct kv_pair]: both fields have the internal type [uint32_t]. *)
Record kv_pair : Type := mk_kv_pair { key : Z; value : Z }.

(** [explicit kv_pair(const key_type key_id)]: the value is
    value-initialised. *)
Definition kv_pair_of_key (key_id : Z) : kv_pair :=
  {| key := static_cast_uint32 key_id; value := 0 |}.

(** [kv_pair(const key_type key_id, const value_type value_id)]. *)
Definition kv_pair_of (key_id value_id : Z) : kv_pair :=
  {| key := static_cast_uint32 key_id; value := static_cast_uint32 value_id |}.

(** [operator<]: [std::tie(key, value) < std::tie(other.key, other.value)],
    the lexicographic comparison of tuples. *)
Definition kv_lt (self other : kv_pair) : bool :=
  (key self <? key other)
  || (negb (key other <? key self) && (value self <? value other)).

(** [operator==]. *)
Definition kv_eq (self other : kv_pair) : bool :=
  (key self =? key other) && (value self =? value other).

(** The comparison object handed to [std::equal_range] in [get]. *)
Definition key_less (lhs rhs : kv_pair) : bool := key lhs <? key rhs.

(** The class itself: its one data member. *)
Record t : Type := FlatMap { m_map : list kv_pair }.

(** A default-constructed map. *)
Definition init : t := FlatMap [].

(** [set]: [m_map.emplace_back(key, value)]. *)
Definition set (key_id value_id : Z) (self : t) : t :=
  FlatMap (m_map self ++ [kv_pair_of key_id value_id]).

(** [swap(p.key, p.value)]. *)
Definition swap (p : kv_pair) : kv_pair :=
  {| key := value p; value := key p |}.

(** [flip_in_place]. *)
Definition flip_in_place (self : t) : t :=
  FlatMap (swap <$> m_map self).

(** [reserve]: capacity only, the entries stay as they are. *)
Definition reserve (n : nat) (self : t) : t := self.

(** [flip_copy]: a method that is not [const], so it returns the new map
    together with the state of [*this] after the call. *)
Definition flip_copy (self : t) : t * t :=
  let map := reserve (length (m_map self)) init in
  let map := foldl (λ map p, set (value p) (key p) map) map (m_map self) in
  (map, self).

(** [sort_unique]. *)
Definition sort_unique (self : t) : t :=
  let sorted := std.sort kv_lt (m_map self) in
  FlatMap (std.unique kv_eq sorted).

(** [get]: the iterator pair of [std::equal_range], as positions. *)
Definition get (key_id : Z) (self : t) : nat * nat :=
  std.equal_range (m_map self) (kv_pair_of_key key_id) key_less.

Definition empty (self : t) : bool :=
  match m_map self with [] => true | _ :: _ => false end.

Definition size (self : t) : nat := length (m_map self).

(** The entries between two iterators of [m_map]. *)
Definition range (self : t) (its : nat * nat) : list kv_pair :=
  take (its.2 - its.1) (drop its.1 (m_map self)).

End flat_map.

(** ** The relation records handed to [add_members] *)
Module osmium.

(** Modelled from the spec: [osmium::item_type] (osmium/osm/item_type.hpp is
    not part of this file), the closed enumeration of the kinds of object a
    relation member can refer to. *)
Inductive item_type : Type :=
  | undefined
  | node
  | way
  | relation
  | area
  | changeset.

#[global] Instance item_type_eq_dec : EqDecision item_type.
Proof. solve_decision. Defined.

(** Modelled from the spec: [osmium::RelationMember] (osmium/osm/relation.hpp
    is not part of this file), of which [add_members] reads the type tag and
    the referenced identifier [positive_ref()]. *)
Record RelationMember : Type :=
  { type : item_type; positive_ref : Z }.

(** Modelled from the spec: [osmium::Relation], of which [add_members] reads
    the identifier [positive_id()] and the ordered members. *)
Record Relation : Type :=
  { positive_id : Z; members : list RelationMember }.

End osmium.

(** ** RelationsMapIndex *)
Module RelationsMapIndex.

Record t : Type := Index { m_map : flat_map.t }.

(** [RelationsMapIndex(RelationsMapIndex&&) = default]: the map of [other]
    is moved into the new index, which leaves the vector of [other] empty.
    The new index, and [other] after the call. *)
Definition move (other : t) : t * t :=
  (Index (m_map other), Index (flat_map.FlatMap [])).

Section visitor.
(** A visitor is a callable run for its effect: it takes the identifier it
    is called with and the state [S] of whatever it captures. *)
Context {S : Type}.

(** [for_each_parent] (deprecated). *)
Definition for_each_parent (member_id : Z) (func : Z → S → S)
    (self : t) (st : S) : S :=
  let parents := flat_map.get member_id (m_map self) in
  foldl (λ st it, func (flat_map.value it) st) st
        (flat_map.range (m_map self) parents).

(** [for_each]. *)
Definition for_each (id : Z) (func : Z → S → S) (self : t) (st : S) : S :=
  let parents := flat_map.get id (m_map self) in
  foldl (λ st it, func (flat_map.value it) st) st
        (flat_map.range (m_map self) parents).

End visitor.

Definition empty (self : t) : bool := flat_map.empty (m_map self).

Definition size (self : t) : nat := flat_map.size (m_map self).

End RelationsMapIndex.

(** ** RelationsMapIndexes *)
Module RelationsMapIndexes.

Record t : Type :=
  Indexes { m_member_to_parent : RelationsMapIndex.t;
            m_parent_to_member : RelationsMapIndex.t }.

(** The private constructor, from two maps. *)
Definition make (map1 map2 : flat_map.t) : t :=
  {| m_member_to_parent := RelationsMapIndex.Index map1;
     m_parent_to_member := RelationsMapIndex.Index map2 |}.

Definition member_to_parent (self : t) : RelationsMapIndex.t :=
  m_member_to_parent self.

Definition parent_to_member (self : t) : RelationsMapIndex.t :=
  m_parent_to_member self.

Definition empty (self : t) : bool :=
  RelationsMapIndex.empty (m_member_to_parent self).

Definition size (self : t) : nat :=
  RelationsMapIndex.size (m_member_to_parent self).

End RelationsMapIndexes.

(** ** RelationsMapStash *)
Module RelationsMapStash.

(** The data members.  [m_valid] is declared under [#ifndef NDEBUG] only; in
    a build with [NDEBUG] the field is carried along and neither read nor
    written. *)
Record t : Type := Stash { m_map : flat_map.t; m_valid : bool }.

(** [RelationsMapStash() = default]. *)
Definition init : t := {| m_map := flat_map.init; m_valid := true |}.

(** A member function either returns, with its result and the state of
    [*this] after the call, or stops the program in a failed [assert]. *)
Inductive result (A : Type) : Type :=
  | Return (a : A) (self : t)
  | AssertionFailed (message : string).
Arguments Return {A} a self.
Arguments AssertionFailed {A} message.

(** A vector that has been moved from is empty. *)
Definition moved_from : flat_map.t := flat_map.FlatMap [].

(** [RelationsMapStash(RelationsMapStash&&) = default]: the members are
    moved one by one, so the map of [other] is left empty and its [m_valid]
    is copied.  The new stash, and [other] after the call. *)
Definition move (other : t) : t * t :=
  ({| m_map := m_map other; m_valid := m_valid other |},
   {| m_map := moved_from; m_valid := m_valid other |}).

Section build_configuration.
(** Whether the translation unit is compiled with [NDEBUG] defined. *)
Variable NDEBUG : bool.

(** [assert(cond && "message")]; with [NDEBUG] the macro expands to nothing. *)
Definition assert {A} (cond : bool) (message : string)
    (continue : result A) : result A :=
  if NDEBUG then continue
  else if cond then continue
  else AssertionFailed message.

(** The statement [m_valid = false;] under [#ifndef NDEBUG]. *)
Definition invalidate (valid : bool) : bool :=
  if NDEBUG then valid else false.

Definition add (member_id relation_id : Z) (self : t) : result unit :=
  assert (m_valid self)
    "You can't use the RelationsMap any more after calling build_index()"
    (Return tt {| m_map := flat_map.set member_id relation_id (m_map self);
                  m_valid := m_valid self |}).

Definition add_members (relation : osmium.Relation) (self : t)
    : result unit :=
  assert (m_valid self)
    "You can't use the RelationsMap any more after calling build_index()"
    (Return tt
       {| m_map :=
            foldl (λ map member,
                     if decide (osmium.type member = osmium.relation)
                     then flat_map.set (osmium.positive_ref member)
                                       (osmium.positive_id relation) map
                     else map)
                  (m_map self) (osmium.members relation);
          m_valid := m_valid self |}).

Definition empty (self : t) : result bool :=
  assert (m_valid self)
    "You can't use the RelationsMap any more after calling build_index()"
    (Return (flat_map.empty (m_map self)) self).

Definition size (self : t) : result nat :=
  assert (m_valid self)
    "You can't use the RelationsMap any more after calling build_index()"
    (Return (flat_map.size (m_map self)) self).

(** [build_index] (deprecated). *)
Definition build_index (self : t) : result RelationsMapIndex.t :=
  assert (m_valid self)
    "You can't use the RelationsMap any more after calling build_index()"
    (let map := flat_map.sort_unique (m_map self) in
     Return (RelationsMapIndex.Index map)
            {| m_map := moved_from; m_valid := invalidate (m_valid self) |}).

Definition build_member_to_parent_index (self : t)
    : result RelationsMapIndex.t :=
  assert (m_valid self)
    "You can't use the RelationsMap any more after calling build_member_to_parent_index()"
    (let map := flat_map.sort_unique (m_map self) in
     Return (RelationsMapIndex.Index map)
            {| m_map := moved_from; m_valid := invalidate (m_valid self) |}).

Definition build_parent_to_member_index (self : t)
    : result RelationsMapIndex.t :=
  assert (m_valid self)
    "You can't use the RelationsMap any more after calling build_parent_to_member_index()"
    (let map := flat_map.flip_in_place (m_map self) in
     let map := flat_map.sort_unique map in
     Return (RelationsMapIndex.Index map)
            {| m_map := moved_from; m_valid := invalidate (m_valid self) |}).

Definition build_indexes (self : t) : result RelationsMapIndexes.t :=
  assert (m_valid self)
    "You can't use the RelationsMap any more after calling build_indexes()"
    (let '(reverse_map, map) := flat_map.flip_copy (m_map self) in
     let reverse_map := flat_map.sort_unique reverse_map in
     let map := flat_map.sort_unique map in
     Return (RelationsMapIndexes.make map reverse_map)
            {| m_map := moved_from; m_valid := invalidate (m_valid self) |}).

End build_configuration.

End RelationsMapStash.


(** * Vocabulary of the properties *)

(** Running a second call on the stash a first call leaves, unless the
    first stopped the program. *)
Definition bind {A B} (r : RelationsMapStash.result A)
    (k : A → RelationsMapStash.t → RelationsMapStash.result B)
    : RelationsMapStash.result B :=
  match r with
  | RelationsMapStash.Return a self => k a self
  | RelationsMapStash.AssertionFailed message =>
      RelationsMapStash.AssertionFailed message
  end.

(** A caller's sequence of [add(k, v)] calls, first call first. *)
Fixpoint add_all (NDEBUG : bool) (pairs : list (Z * Z))
    (self : RelationsMapStash.t) : RelationsMapStash.result unit :=
  match pairs with
  | [] => RelationsMapStash.Return tt self
  | (k, v) :: pairs' =>
      bind (RelationsMapStash.add NDEBUG k v self)
           (λ _ self', add_all NDEBUG pairs' self')
  end.

(** The stash can be used: its assertions hold, or are compiled out. *)
Definition usable (NDEBUG : bool) (self : RelationsMapStash.t) : Prop :=
  NDEBUG = true ∨ RelationsMapStash.m_valid self = true.

(** What a caller can observe of a call, the text of the message apart. *)
Definition outcome {A} (r : RelationsMapStash.result A)
    : option (A * RelationsMapStash.t) :=
  match r with
  | RelationsMapStash.Return a self => Some (a, self)
  | RelationsMapStash.AssertionFailed _ => None
  end.

(** A call stopped in a failed [assert]. *)
Definition fails {A} (r : RelationsMapStash.result A) : Prop :=
  ∃ message, r = RelationsMapStash.AssertionFailed message.

(** In a build without [NDEBUG], one of the four [build_*] member functions
    returns on [stash] and leaves it as [after]. *)
Definition freezes (stash after : RelationsMapStash.t) : Prop :=
  (∃ index, RelationsMapStash.build_index false stash
            = RelationsMapStash.Return index after)
  ∨ (∃ index, RelationsMapStash.build_member_to_parent_index false stash
              = RelationsMapStash.Return index after)
  ∨ (∃ index, RelationsMapStash.build_parent_to_member_index false stash
              = RelationsMapStash.Return index after)
  ∨ (∃ indexes, RelationsMapStash.build_indexes false stash
                = RelationsMapStash.Return indexes after).

(** The visitor that records its calls, and the calls [for_each] makes to
    it, first call first. *)
Definition record_call (id : Z) (calls : list Z) : list Z := calls ++ [id].

Definition calls (id : Z) (index : RelationsMapIndex.t) : list Z :=
  RelationsMapIndex.for_each id record_call index [].

(** [for_each(id, func)] on [index] calls [func] with the identifiers of
    [ids], one call for each, first to last, whatever [func] is. *)
Definition makes_calls (id : Z) (index : RelationsMapIndex.t)
    (ids : list Z) : Prop :=
  ∀ (S : Type) (func : Z → S → S) (st : S),
    RelationsMapIndex.for_each id func index st
    = foldl (λ st v, func v st) st ids.

(** The identifiers of [ids] are in strictly ascending order (so each occurs
    once), and they are exactly those that satisfy [expected]. *)
Definition ascending_exactly (ids : list Z) (expected : Z → Prop) : Prop :=
  StronglySorted Z.lt ids ∧ ∀ v, v ∈ ids ↔ expected v.

(** The two orders on entries, as propositions: [operator<] itself, and the
    order in which a sort by [operator<] leaves its elements. *)
Definition kv_before : relation flat_map.kv_pair :=
  λ a b, flat_map.kv_lt a b = true.
Definition kv_le : relation flat_map.kv_pair := std.not_after flat_map.kv_lt.

(** The precondition of [std::lower_bound] and [std::upper_bound]: the
    vector is partitioned, the elements that satisfy [pred] come first. *)
Definition partitioned {A} (pred : A → bool) (l : list A) : Prop :=
  ∀ (i j : nat) x y, (i ≤ j)%nat →
    l !! i = Some x → l !! j = Some y → pred y = true → pred x = true.

(** The invariant the field types of [kv_pair] give every map: both fields
    of every entry are [uint32_t] values. *)
Definition kv_in_range (p : flat_map.kv_pair) : Prop :=
  is_uint32 (flat_map.key p) ∧ is_uint32 (flat_map.value p).

Definition map_in_range (m : flat_map.t) : Prop :=
  Forall kv_in_range (flat_map.m_map m).

(** Every identifier of a sequence of [add(k, v)] calls fits the 32-bit
    fields of an entry. *)
Definition pairs_in_range (pairs : list (Z * Z)) : Prop :=
  Forall (λ kv, is_uint32 kv.1 ∧ is_uint32 kv.2) pairs.

(** The entries a sequence of [add(k, v)] calls appends. *)
Definition entries_of (pairs : list (Z * Z)) : list flat_map.kv_pair :=
  (λ kv, flat_map.kv_pair_of kv.1 kv.2) <$> pairs.

(** The pairs a relation contributes: one for each member that is itself a
    relation, in the order of the members. *)
Definition relation_pairs (relation : osmium.Relation) : list (Z * Z) :=
  (λ member, (osmium.positive_ref member, osmium.positive_id relation))
  <$> filter (λ member, osmium.type member = osmium.relation)
             (osmium.members relation).

(** The worked example: a stash after
    [add(1, 100); add(2, 100); add(1, 100); add(3, 200)]. *)
Definition example_pairs : list (Z * Z) :=
  [(1, 100); (2, 100); (1, 100); (3, 200)].

Definition example_stash : RelationsMapStash.t :=
  {| RelationsMapStash.m_map := flat_map.FlatMap (entries_of example_pairs);
     RelationsMapStash.m_valid := true |}.

(** [example_stash] after one of the [build_*] calls of a build without
    [NDEBUG]. *)
Definition example_consumed : RelationsMapStash.t :=
  {| RelationsMapStash.m_map := RelationsMapStash.moved_from;
     RelationsMapStash.m_valid := false |}.

(** A relation with the identifier 200 and two relations among its four
    members. *)
Definition example_relation : osmium.Relation :=
  {| osmium.positive_id := 200;
     osmium.members :=
       [ {| osmium.type := osmium.node; osmium.positive_ref := 5 |};
         {| osmium.type := osmium.relation; osmium.positive_ref := 7 |};
         {| osmium.type := osmium.relation; osmium.positive_ref := 9 |};
         {| osmium.type := osmium.way; osmium.positive_ref := 11 |} ] |}.

(** A map in ascending order whose flipped copy is not. *)
Definition example_map : flat_map.t :=
  flat_map.FlatMap [ {| flat_map.key := 1; flat_map.value := 2 |};
                     {| flat_map.key := 2; flat_map.value := 1 |} ].

(** [build] returns [a] on the stash that the calls [add(k, v)] of [pairs]
    leave of a new stash. *)
Definition builds_from {A} (NDEBUG : bool)
    (build : bool → RelationsMapStash.t → RelationsMapStash.result A)
    (pairs : list (Z * Z)) (a : A) : Prop :=
  ∃ stash after,
    add_all NDEBUG pairs RelationsMapStash.init
      = RelationsMapStash.Return tt stash
    ∧ build NDEBUG stash = RelationsMapStash.Return a after.

(** In a build with [NDEBUG], one of the four [build_*] member functions
    returns on [stash] and leaves it as [after]. *)
Definition freezes_ndebug (stash after : RelationsMapStash.t) : Prop :=
  (∃ index, RelationsMapStash.build_index true stash
            = RelationsMapStash.Return index after)
  ∨ (∃ index, RelationsMapStash.build_member_to_parent_index true stash
              = RelationsMapStash.Return index after)
  ∨ (∃ index, RelationsMapStash.build_parent_to_member_index true stash
              = RelationsMapStash.Return index after)
  ∨ (∃ indexes, RelationsMapStash.build_indexes true stash
                = RelationsMapStash.Return indexes after).

(** The members of a relation that are relations themselves. *)
Definition relation_members (relation : osmium.Relation)
    : list osmium.RelationMember :=
  filter (λ member, osmium.type member = osmium.relation)
         (osmium.members relation).

(** The relation [2^32 + 3] whose one member is the relation [2^32 + 7]. *)
Definition example_wide_relation : osmium.Relation :=
  {| osmium.positive_id := 4294967299;
     osmium.members :=
       [ {| osmium.type := osmium.relation;
            osmium.positive_ref := 4294967303 |} ] |}.

(** * Properties *)

(** ** The order of the entries *)
Section kv_order.
Import flat_map.

Lemma kv_lt_spec a b :
  kv_lt a b = true ↔ key a < key b ∨ (key a = key b ∧ value a < value b).
Proof.
  unfold kv_lt.
  destruct (Z.ltb_spec (key a) (key b)), (Z.ltb_spec (key b) (key a)),
    (Z.ltb_spec (value a) (value b)); simpl; split; intros; try done; lia.
Qed.

Lemma kv_le_spec a b :
  kv_le a b ↔ key a < key b ∨ (key a = key b ∧ value a ≤ value b).
Proof.
  unfold kv_le, std.not_after.
  destruct (kv_lt b a) eqn:E.
  - apply kv_lt_spec in E. split; [done | lia].
  - split; [intros _ | done].
    assert (¬ (key b < key a ∨ key b = key a ∧ value b < value a)) as N.
    { rewrite <- kv_lt_spec, E. done. }
    lia.
Qed.

Lemma kv_eq_spec a b : kv_eq a b = true ↔ a = b.
Proof.
  unfold kv_eq. destruct a as [ka va], b as [kb vb]; simpl.
  rewrite andb_true_iff, !Z.eqb_eq. split; [intros [-> ->] | intros [= -> ->]]; done.
Qed.

Lemma kv_eq_false a b : kv_eq a b = false ↔ a ≠ b.
Proof. rewrite <- kv_eq_spec. destruct (kv_eq a b); split; congruence. Qed.

Lemma kv_pair_ext a b : key a = key b → value a = value b → a = b.
Proof. destruct a, b; simpl; congruence. Qed.

Lemma kv_le_total : Total kv_le.
Proof. intros a b. rewrite !kv_le_spec. lia. Qed.
#[global] Existing Instance kv_le_total.

Lemma kv_le_trans : Transitive kv_le.
Proof. intros a b c. rewrite !kv_le_spec. lia. Qed.
#[global] Existing Instance kv_le_trans.

Lemma kv_le_antisymm : AntiSymm (=) kv_le.
Proof.
  intros a b. rewrite !kv_le_spec. intros Hab Hba.
  apply kv_pair_ext; lia.
Qed.
#[global] Existing Instance kv_le_antisymm.

Lemma kv_before_trans : Transitive kv_before.
Proof. intros a b c. unfold kv_before. rewrite !kv_lt_spec. lia. Qed.
#[global] Existing Instance kv_before_trans.

Lemma kv_before_le a b : kv_before a b → kv_le a b.
Proof. unfold kv_before. rewrite kv_lt_spec, kv_le_spec. lia. Qed.

Lemma kv_le_ne_before a b : kv_le a b → a ≠ b → kv_before a b.
Proof.
  unfold kv_before. rewrite kv_lt_spec, kv_le_spec. intros H N.
  destruct (decide (value a = value b)) as [Hv|Hv]; [|lia].
  destruct (decide (key a = key b)) as [Hk|Hk]; [|lia].
  destruct N. by apply kv_pair_ext.
Qed.

Lemma kv_before_irrefl a : ¬ kv_before a a.
Proof. unfold kv_before. rewrite kv_lt_spec. lia. Qed.

End kv_order.

(** ** [std::sort] and [std::unique] on entries *)
Section sort_unique_facts.
Import flat_map.

Lemma sort_sorted l : StronglySorted kv_le (std.sort kv_lt l).
Proof. unfold std.sort. apply (StronglySorted_merge_sort kv_le). Qed.

Lemma sort_permutation l : std.sort kv_lt l ≡ₚ l.
Proof. unfold std.sort. apply merge_sort_Permutation. Qed.

(** Whatever algorithm [std::sort] runs, the vector it leaves is this one:
    a rearrangement of [l] that is in order is [std.sort kv_lt l]. *)
Lemma sort_determined l l' :
  l' ≡ₚ l → StronglySorted kv_le l' → l' = std.sort kv_lt l.
Proof.
  intros Hp Hs. apply (StronglySorted_unique kv_le); [done | apply sort_sorted |].
  by rewrite sort_permutation.
Qed.

Lemma strict_sorted_le l : StronglySorted kv_before l → StronglySorted kv_le l.
Proof.
  induction 1 as [|x l _ IH Hx]; constructor; [done |].
  eapply Forall_impl; [exact Hx | apply kv_before_le].
Qed.

Lemma sort_of_sorted l : StronglySorted kv_le l → std.sort kv_lt l = l.
Proof. intros Hs. symmetry. by apply sort_determined. Qed.

Lemma unique_from_spec prev l :
  Forall (kv_le prev) l → StronglySorted kv_le l →
  Forall (kv_before prev) (std.unique_from kv_eq prev l)
  ∧ StronglySorted kv_before (std.unique_from kv_eq prev l)
  ∧ ∀ x, x ∈ prev :: std.unique_from kv_eq prev l ↔ x ∈ prev :: l.
Proof.
  revert prev. induction l as [|y l IH]; intros prev Hprev Hs; simpl.
  { split; [constructor | split; [constructor | done]]. }
  apply Forall_cons in Hprev as [Hy Hprev].
  apply StronglySorted_cons in Hs as [Hyl Hs].
  destruct (kv_eq prev y) eqn:E.
  - apply kv_eq_spec in E as <-.
    destruct (IH prev Hprev Hs) as (H1 & H2 & H3).
    split; [done | split; [done |]].
    intros x. rewrite H3, !elem_of_cons. tauto.
  - apply kv_eq_false in E.
    destruct (IH y Hyl Hs) as (H1 & H2 & H3).
    assert (kv_before prev y) as Hlt by by apply kv_le_ne_before.
    split; [|split].
    + constructor; [done |].
      eapply Forall_impl; [exact H1 | intros z Hz; by etrans].
    + by constructor.
    + intros x. rewrite (elem_of_cons (_ :: _)), H3, !elem_of_cons. tauto.
Qed.

Lemma unique_spec l :
  StronglySorted kv_le l →
  StronglySorted kv_before (std.unique kv_eq l)
  ∧ ∀ x, x ∈ std.unique kv_eq l ↔ x ∈ l.
Proof.
  destruct l as [|x l]; simpl; [split; [constructor | done] |].
  intros [Hx Hs]%StronglySorted_cons.
  destruct (unique_from_spec x l Hx Hs) as (H1 & H2 & H3).
  split; [by constructor | done].
Qed.

Lemma unique_from_strict prev l :
  Forall (kv_before prev) l → StronglySorted kv_before l →
  std.unique_from kv_eq prev l = l.
Proof.
  revert prev. induction l as [|y l IH]; intros prev Hprev Hs; simpl; [done |].
  apply Forall_cons in Hprev as [Hy Hprev].
  apply StronglySorted_cons in Hs as [Hyl Hs].
  destruct (kv_eq prev y) eqn:E.
  - apply kv_eq_spec in E as <-. by apply kv_before_irrefl in Hy.
  - f_equal. by apply IH.
Qed.

Lemma unique_of_strict l :
  StronglySorted kv_before l → std.unique kv_eq l = l.
Proof.
  destruct l as [|x l]; simpl; [done |].
  intros [Hx Hs]%StronglySorted_cons. f_equal. by apply unique_from_strict.
Qed.

(** What [sort_unique] leaves: the entries in strictly ascending order of
    (key, value), and the same entries as before as a set. *)
Lemma sort_unique_sorted m : StronglySorted kv_before (m_map (sort_unique m)).
Proof. simpl. apply unique_spec, sort_sorted. Qed.

Lemma sort_unique_elem_of m x : x ∈ m_map (sort_unique m) ↔ x ∈ m_map m.
Proof.
  simpl. destruct (unique_spec _ (sort_sorted (m_map m))) as [_ ->].
  by rewrite sort_permutation.
Qed.

Lemma strict_sorted_NoDup l : StronglySorted kv_before l → NoDup l.
Proof.
  induction 1 as [|x l _ IH Hx]; constructor; [|done].
  intros Hin. rewrite Forall_forall in Hx. by apply (kv_before_irrefl x), Hx.
Qed.

End sort_unique_facts.

(** ** Binary search *)
Section bisect_facts.
Context {A : Type} (pred : A → bool) (l : list A).

(** On a partitioned vector the loop stops at the partition point: the
    positions in front of the result are those whose element satisfies
    [pred]. *)
Lemma bisect_spec (fuel first len : nat) :
  partitioned pred l →
  (len ≤ fuel)%nat → (first + len ≤ length l)%nat →
  (∀ i x, (i < first)%nat → l !! i = Some x → pred x = true) →
  (∀ i x, (first + len ≤ i)%nat → l !! i = Some x → pred x = false) →
  (first ≤ std.bisect pred l fuel first len ≤ first + len)%nat
  ∧ ∀ i x, l !! i = Some x →
      (pred x = true ↔ (i < std.bisect pred l fuel first len)%nat).
Proof.
  intros Hpart. revert first len.
  assert (∀ first : nat,
    (∀ i x, (i < first)%nat → l !! i = Some x → pred x = true) →
    (∀ i x, (first ≤ i)%nat → l !! i = Some x → pred x = false) →
    ∀ i x, l !! i = Some x → (pred x = true ↔ (i < first)%nat)) as Hdone.
  { intros first Hlo Hhi i x Hi. destruct (decide (i < first)%nat) as [Hlt|Hge].
    - split; [done | intros _; by eapply Hlo].
    - split; [|done]. intros Hp. rewrite (Hhi i x) in Hp; [done | lia | done]. }
  induction fuel as [|fuel IH]; intros first len Hfuel Hlen Hlo Hhi.
  { simpl. assert (len = 0%nat) as -> by lia. split; [lia |].
    apply Hdone; [done |]. intros i x ?. apply Hhi. lia. }
  destruct len as [|n].
  { simpl. split; [lia |].
    apply Hdone; [done |]. intros i x ?. apply Hhi. lia. }
  cbn [std.bisect].
  pose proof (Nat.lt_div2 (S n) ltac:(lia)) as Hhalf.
  set (half := Nat.div2 (S n)) in *.
  destruct (lookup_lt_is_Some_2 l (first + half)) as [x Hx]; [lia |].
  rewrite Hx. destruct (pred x) eqn:Hpx.
  - destruct (IH (S (first + half)) (S n - half - 1)%nat) as [Hr Hiff];
      [lia | lia | | | split; [lia | done]].
    + intros i y Hi Hy. apply (Hpart i (first + half)%nat y x); [lia | done..].
    + intros i y Hi Hy. apply (Hhi i); [lia | done].
  - destruct (IH first half) as [Hr Hiff]; [lia | lia | done | | split; [lia | done]].
    intros i y Hi Hy. destruct (pred y) eqn:Hpy; [|done].
    rewrite <- Hpx. symmetry.
    apply (Hpart (first + half)%nat i x y); [lia | done..].
Qed.

Lemma bisect_whole :
  partitioned pred l →
  (std.bisect pred l (length l) 0 (length l) ≤ length l)%nat
  ∧ ∀ i x, l !! i = Some x →
      (pred x = true ↔ (i < std.bisect pred l (length l) 0 (length l))%nat).
Proof.
  intros Hpart.
  destruct (bisect_spec (length l) 0 (length l) Hpart) as [Hr Hiff];
    [lia | lia | intros; lia | | split; [lia | done]].
  intros i x Hi Hx. apply lookup_lt_Some in Hx. simpl in Hi. lia.
Qed.

End bisect_facts.

(** ** Looking a key up in a sorted map *)
Section segment.
Context {A : Type} (P : A → Prop) `{!∀ x, Decision (P x)}.

Lemma filter_all (l : list A) : Forall P l → filter P l = l.
Proof.
  induction 1 as [|x l Hx _ IH]; [done |].
  by rewrite filter_cons_True, IH.
Qed.

Lemma filter_none (l : list A) : Forall (λ x, ¬ P x) l → filter P l = [].
Proof.
  induction 1 as [|x l Hx _ IH]; [done |].
  by rewrite filter_cons_False.
Qed.

(** When the elements that satisfy [P] are those at the positions from [lo]
    up to [hi], the segment between the two positions is the filter. *)
Lemma filter_segment (l : list A) (lo hi : nat) :
  (lo ≤ hi)%nat →
  (∀ i x, l !! i = Some x → (P x ↔ (lo ≤ i < hi)%nat)) →
  take (hi - lo) (drop lo l) = filter P l.
Proof.
  intros Hle HP.
  rewrite <- (take_drop lo l) at 2.
  rewrite <- (take_drop (hi - lo) (drop lo l)) at 2.
  rewrite !filter_app.
  rewrite (filter_none (take lo l)), (filter_all (take _ (drop lo l))),
    (filter_none (drop _ (drop lo l))); [by rewrite app_nil_r | ..].
  - apply Forall_lookup. intros i x. rewrite !lookup_drop.
    intros Hx. rewrite (HP _ _ Hx). lia.
  - apply Forall_lookup. intros i x [Hx Hi]%lookup_take_Some.
    rewrite lookup_drop in Hx. rewrite (HP _ _ Hx). lia.
  - apply Forall_lookup. intros i x [Hx Hi]%lookup_take_Some.
    rewrite (HP _ _ Hx). lia.
Qed.

End segment.

Section get_facts.
Import flat_map.

Lemma sorted_lookup_le l (i j : nat) x y :
  StronglySorted kv_le l → (i ≤ j)%nat →
  l !! i = Some x → l !! j = Some y → kv_le x y.
Proof.
  intros Hs. revert i j. induction Hs as [|z l _ IH Hz]; intros i j Hij Hi Hj.
  { by rewrite lookup_nil in Hi. }
  destruct i as [|i], j as [|j]; simpl in *; simplify_eq.
  - apply kv_le_spec. lia.
  - rewrite Forall_lookup in Hz. by eapply Hz.
  - lia.
  - apply (IH i j); [lia | done..].
Qed.

Lemma lower_partitioned l probe :
  StronglySorted kv_le l → partitioned (λ x, key_less x probe) l.
Proof.
  intros Hs i j x y Hij Hx Hy. unfold key_less. rewrite !Z.ltb_lt.
  pose proof (sorted_lookup_le l i j x y Hs Hij Hx Hy) as Hle.
  apply kv_le_spec in Hle. lia.
Qed.

Lemma upper_partitioned l probe :
  StronglySorted kv_le l → partitioned (λ x, negb (key_less probe x)) l.
Proof.
  intros Hs i j x y Hij Hx Hy. unfold key_less.
  rewrite !negb_true_iff, !Z.ltb_ge.
  pose proof (sorted_lookup_le l i j x y Hs Hij Hx Hy) as Hle.
  apply kv_le_spec in Hle. lia.
Qed.

Lemma lower_bound_spec l key_id :
  StronglySorted kv_le l →
  (std.lower_bound l (kv_pair_of_key key_id) key_less ≤ length l)%nat
  ∧ ∀ i x, l !! i = Some x →
      (key x < static_cast_uint32 key_id
       ↔ (i < std.lower_bound l (kv_pair_of_key key_id) key_less)%nat).
Proof.
  intros Hs. unfold std.lower_bound.
  destruct (bisect_whole _ _ (lower_partitioned _ (kv_pair_of_key key_id) Hs))
    as [Hlo Hiff].
  split; [done |]. intros i x Hx. rewrite <- (Hiff i x Hx).
  unfold key_less. simpl. by rewrite Z.ltb_lt.
Qed.

Lemma upper_bound_spec l key_id :
  StronglySorted kv_le l →
  (std.upper_bound l (kv_pair_of_key key_id) key_less ≤ length l)%nat
  ∧ ∀ i x, l !! i = Some x →
      (key x ≤ static_cast_uint32 key_id
       ↔ (i < std.upper_bound l (kv_pair_of_key key_id) key_less)%nat).
Proof.
  intros Hs. unfold std.upper_bound.
  destruct (bisect_whole _ _ (upper_partitioned _ (kv_pair_of_key key_id) Hs))
    as [Hhi Hiff].
  split; [done |]. intros i x Hx. rewrite <- (Hiff i x Hx).
  unfold key_less. simpl. by rewrite negb_true_iff, Z.ltb_ge.
Qed.

(** The iterator pair of [get] on a sorted map: a pair of positions, in
    order, and the entries from the first up to the second are those whose
    key is the key looked up, narrowed as the entries are. *)
Lemma get_spec key_id m :
  StronglySorted kv_le (m_map m) →
  ((get key_id m).1 ≤ (get key_id m).2 ≤ length (m_map m))%nat
  ∧ ∀ i x, m_map m !! i = Some x →
      (key x = static_cast_uint32 key_id
       ↔ ((get key_id m).1 ≤ i < (get key_id m).2)%nat).
Proof.
  intros Hs. unfold get, std.equal_range. cbn [fst snd].
  destruct (lower_bound_spec _ key_id Hs) as [Hlo Hlo_iff].
  destruct (upper_bound_spec _ key_id Hs) as [Hhi Hhi_iff].
  revert Hlo Hlo_iff Hhi Hhi_iff.
  generalize (std.lower_bound (m_map m) (kv_pair_of_key key_id) key_less).
  generalize (std.upper_bound (m_map m) (kv_pair_of_key key_id) key_less).
  intros hi lo Hlo Hlo_iff Hhi Hhi_iff.
  assert (lo ≤ hi)%nat as Hle.
  { destruct (decide (lo ≤ hi)%nat) as [|Hgt]; [done |].
    destruct (lookup_lt_is_Some_2 (m_map m) hi) as [x Hx]; [lia |].
    pose proof (Hlo_iff hi x Hx). pose proof (Hhi_iff hi x Hx). lia. }
  split; [lia |]. intros i x Hx.
  pose proof (Hlo_iff i x Hx). pose proof (Hhi_iff i x Hx). lia.
Qed.

Lemma range_get_filter key_id m :
  StronglySorted kv_le (m_map m) →
  range m (get key_id m)
  = filter (λ p, key p = static_cast_uint32 key_id) (m_map m).
Proof.
  intros Hs. destruct (get_spec key_id m Hs) as [Hle Hiff].
  unfold range. apply filter_segment; [lia | done].
Qed.

Lemma range_get_filter_example :
  range example_map (get 2 example_map)
  = filter (λ p, key p = static_cast_uint32 2) (m_map example_map).
Proof.
  apply (range_get_filter 2 example_map).
  repeat constructor.
Defined.

End get_facts.

(** ** The calls of [for_each] *)
Section for_each_facts.
Import flat_map.

Lemma foldl_record_call (l : list kv_pair) (acc : list Z) :
  foldl (λ st it, record_call (value it) st) acc l
  = acc ++ (value <$> l).
Proof.
  revert acc. induction l as [|p l IH]; intros acc; simpl.
  - by rewrite app_nil_r.
  - rewrite IH. unfold record_call.
    by rewrite <- app_assoc.
Qed.

Lemma calls_range id index :
  calls id index
  = value <$> range (RelationsMapIndex.m_map index)
                    (get id (RelationsMapIndex.m_map index)).
Proof.
  unfold calls, RelationsMapIndex.for_each.
  by rewrite foldl_record_call.
Qed.

(** [for_each] does with any visitor what it does with the recording one. *)
Lemma makes_calls_calls id index :
  makes_calls id index (calls id index).
Proof.
  intros S func st. rewrite calls_range.
  unfold RelationsMapIndex.for_each.
  generalize (range (RelationsMapIndex.m_map index)
                    (get id (RelationsMapIndex.m_map index))).
  intros l. revert st. induction l as [|p l IH]; intros st; simpl; [done |].
  apply IH.
Qed.

Lemma makes_calls_unique id index ids :
  makes_calls id index ids → ids = calls id index.
Proof.
  intros H. unfold calls. rewrite (H (list Z)).
  assert (∀ acc, foldl (λ st v, record_call v st) acc ids
                 = acc ++ ids) as Hfold.
  { clear. induction ids as [|v ids IH]; intros acc; simpl.
    - by rewrite app_nil_r.
    - rewrite IH. unfold record_call. by rewrite <- app_assoc. }
  by rewrite Hfold.
Qed.

(** On a sorted index, the calls are the values of the entries with the key
    asked for, in the order of the map. *)
Lemma calls_filter id index :
  StronglySorted kv_le (m_map (RelationsMapIndex.m_map index)) →
  calls id index
  = value <$> filter (λ p, key p = static_cast_uint32 id)
                     (m_map (RelationsMapIndex.m_map index)).
Proof. intros Hs. by rewrite calls_range, range_get_filter. Qed.

Lemma values_of_key_sorted k l :
  StronglySorted kv_before l →
  StronglySorted Z.lt (value <$> filter (λ p, key p = k) l).
Proof.
  induction 1 as [|x l _ IH Hx]; [constructor |].
  rewrite filter_cons. destruct (decide (key x = k)) as [Hk|Hk]; [|done].
  csimpl. constructor; [done |].
  rewrite Forall_fmap. apply Forall_forall.
  intros y [Hy Hin]%list_elem_of_filter.
  rewrite Forall_forall in Hx. specialize (Hx y Hin).
  unfold kv_before in Hx. apply kv_lt_spec in Hx. simpl. lia.
Qed.

Lemma values_of_key_elem_of k (l : list kv_pair) v :
  v ∈ value <$> filter (λ p, key p = k) l ↔ {| key := k; value := v |} ∈ l.
Proof.
  rewrite list_elem_of_fmap. split.
  - intros (p & -> & [Hk Hin]%list_elem_of_filter).
    destruct p as [k' v']; simpl in *. by subst.
  - intros Hin. exists {| key := k; value := v |}.
    split; [done |]. by apply list_elem_of_filter.
Qed.

(** The calls [for_each] makes on the index built by sorting the entries of
    [m]: the values that [m] pairs with the narrowed key, ascending. *)
Lemma calls_sort_unique id m :
  ascending_exactly
    (calls id (RelationsMapIndex.Index (sort_unique m)))
    (λ v, {| key := static_cast_uint32 id; value := v |} ∈ m_map m).
Proof.
  pose proof (sort_unique_sorted m) as Hs.
  rewrite calls_filter by by apply strict_sorted_le.
  cbn [RelationsMapIndex.m_map]. split.
  - by apply values_of_key_sorted.
  - intros v. by rewrite values_of_key_elem_of, sort_unique_elem_of.
Qed.

Lemma ascending_exactly_none ids expected :
  ascending_exactly ids expected → (∀ v, ¬ expected v) → ids = [].
Proof.
  intros [_ Hin] Hnone. destruct ids as [|v ids]; [done |].
  destruct (Hnone v). apply Hin, elem_of_cons. by left.
Qed.

End for_each_facts.

(** ** The stash *)
Section stash_facts.
Import RelationsMapStash.

Lemma assert_usable NDEBUG self {A} message (continue : result A) :
  usable NDEBUG self →
  assert NDEBUG (m_valid self) message continue = continue.
Proof. unfold assert. intros [-> | ->]; [done |]. by destruct NDEBUG. Qed.

Lemma assert_consumed self {A} message (continue : result A) :
  m_valid self = false →
  assert false (m_valid self) message continue = AssertionFailed message.
Proof. unfold assert. by intros ->. Qed.

Lemma usable_init NDEBUG : usable NDEBUG init.
Proof. by right. Qed.

Lemma add_usable NDEBUG member_id relation_id self :
  usable NDEBUG self →
  add NDEBUG member_id relation_id self
  = Return tt {| m_map := flat_map.set member_id relation_id (m_map self);
                 m_valid := m_valid self |}.
Proof. intros Hu. unfold add. by rewrite assert_usable. Qed.

Lemma add_all_usable NDEBUG pairs self :
  usable NDEBUG self →
  add_all NDEBUG pairs self
  = Return tt
      {| m_map := flat_map.FlatMap
                    (flat_map.m_map (m_map self) ++ entries_of pairs);
         m_valid := m_valid self |}.
Proof.
  revert self. induction pairs as [|[k v] pairs IH]; intros self Hu; simpl.
  - rewrite app_nil_r. by destruct self as [[l] valid].
  - rewrite add_usable by done. simpl. rewrite IH by done. simpl.
    unfold flat_map.set. simpl. by rewrite <- app_assoc.
Qed.

Lemma add_all_init NDEBUG pairs :
  add_all NDEBUG pairs init
  = Return tt {| m_map := flat_map.FlatMap (entries_of pairs);
                 m_valid := true |}.
Proof. by rewrite add_all_usable by apply usable_init. Qed.

Lemma elem_of_entries_of a b pairs :
  {| flat_map.key := a; flat_map.value := b |} ∈ entries_of pairs
  ↔ ∃ k v, (k, v) ∈ pairs
           ∧ static_cast_uint32 k = a ∧ static_cast_uint32 v = b.
Proof.
  unfold entries_of. rewrite list_elem_of_fmap. split.
  - intros ([k v] & [= -> ->] & Hin). by exists k, v.
  - intros (k & v & Hin & <- & <-). by exists (k, v).
Qed.

Lemma elem_of_swap a b (l : list flat_map.kv_pair) :
  {| flat_map.key := a; flat_map.value := b |} ∈ flat_map.swap <$> l
  ↔ {| flat_map.key := b; flat_map.value := a |} ∈ l.
Proof.
  rewrite list_elem_of_fmap. split.
  - intros ([k v] & [= -> ->] & Hin). done.
  - intros Hin. by exists {| flat_map.key := b; flat_map.value := a |}.
Qed.

End stash_facts.

(** ** Flipping a map *)
Section flip_facts.
Import flat_map.

Lemma static_cast_uint32_in_range x : is_uint32 (static_cast_uint32 x).
Proof.
  unfold is_uint32, static_cast_uint32, uint32_modulus.
  apply Z.mod_pos_bound. lia.
Qed.

Lemma static_cast_uint32_small x : is_uint32 x → static_cast_uint32 x = x.
Proof.
  unfold is_uint32, static_cast_uint32. intros H. by apply Z.mod_small.
Qed.

Lemma kv_pair_of_in_range k v : kv_in_range (kv_pair_of k v).
Proof. split; apply static_cast_uint32_in_range. Qed.

Lemma entries_of_in_range pairs : map_in_range (FlatMap (entries_of pairs)).
Proof.
  unfold map_in_range, entries_of. simpl. apply Forall_fmap, Forall_forall.
  intros [k v] _. apply kv_pair_of_in_range.
Qed.

Lemma set_in_range k v m : map_in_range m → map_in_range (set k v m).
Proof.
  unfold map_in_range, set. simpl. intros H.
  apply Forall_app. split; [done |].
  constructor; [apply kv_pair_of_in_range | constructor].
Qed.

Lemma swap_involutive p : swap (swap p) = p.
Proof. by destruct p. Qed.

Lemma swap_inj : Inj (=) (=) swap.
Proof. intros p q H. by rewrite <- (swap_involutive p), H, swap_involutive. Qed.
#[global] Existing Instance swap_inj.

Lemma foldl_set_swapped (l : list kv_pair) (acc : t) :
  foldl (λ map p, set (value p) (key p) map) acc l
  = FlatMap (m_map acc ++ ((λ p, kv_pair_of (value p) (key p)) <$> l)).
Proof.
  revert acc. induction l as [|p l IH]; intros [acc]; simpl.
  - by rewrite app_nil_r.
  - rewrite IH. unfold set. simpl. by rewrite <- app_assoc.
Qed.

(** The copy made by [flip_copy] holds what [flip_in_place] would leave. *)
Lemma flip_copy_flip_in_place m :
  map_in_range m → flip_copy m = (flip_in_place m, m).
Proof.
  intros Hr. unfold flip_copy, reserve, flip_in_place. f_equal.
  rewrite foldl_set_swapped. simpl. f_equal.
  apply list_fmap_ext. intros _ p Hp%list_elem_of_lookup_2.
  unfold map_in_range in Hr. rewrite Forall_forall in Hr.
  destruct (Hr p Hp) as [Hk Hv]. unfold kv_pair_of, swap.
  by rewrite !static_cast_uint32_small.
Qed.

Lemma sort_unique_flip_length m :
  length (m_map (sort_unique (flip_in_place m)))
  = length (m_map (sort_unique m)).
Proof.
  rewrite <- (length_fmap swap (m_map (sort_unique m))).
  apply Permutation_length, NoDup_Permutation.
  - apply strict_sorted_NoDup, sort_unique_sorted.
  - apply (NoDup_fmap_2 swap), strict_sorted_NoDup, sort_unique_sorted.
  - intros [k v]. rewrite sort_unique_elem_of. cbn [flip_in_place m_map].
    rewrite !elem_of_swap. by rewrite sort_unique_elem_of.
Qed.

Lemma empty_size m : empty m = bool_decide (size m = 0%nat).
Proof. unfold empty, size. by destruct (m_map m). Qed.

End flip_facts.

(** ** Identifiers that fit 32 bits, the worked example, and builds
    with [NDEBUG] *)
Section further_facts.
Import RelationsMapStash.

Lemma elem_of_entries_of_in_range a b pairs :
  pairs_in_range pairs → is_uint32 a →
  {| flat_map.key := static_cast_uint32 a; flat_map.value := b |}
    ∈ entries_of pairs
  ↔ (a, b) ∈ pairs.
Proof.
  intros Hr Ha. unfold pairs_in_range in Hr. rewrite Forall_forall in Hr.
  rewrite elem_of_entries_of. split.
  - intros (k & v & Hin & Hk & Hv).
    destruct (Hr _ Hin) as [Hkr Hvr]. simpl in *.
    rewrite !static_cast_uint32_small in Hk by done.
    rewrite static_cast_uint32_small in Hv by done. by subst.
  - intros Hin. exists a, b. destruct (Hr _ Hin) as [_ Hbr]. simpl in *.
    by rewrite (static_cast_uint32_small b).
Qed.

(** When every identifier added and the identifier asked for fit 32 bits,
    [for_each(id)] on the member to parent index visits the distinct values
    added with the key [id], ascending. *)
Lemma for_each_member_to_parent_in_range NDEBUG pairs id :
  pairs_in_range pairs → is_uint32 id →
  ∃ stash index stash' ids,
    add_all NDEBUG pairs init = Return tt stash
    ∧ build_member_to_parent_index NDEBUG stash = Return index stash'
    ∧ makes_calls id index ids
    ∧ ascending_exactly ids (λ v, (id, v) ∈ pairs)
    ∧ ((∀ v, (id, v) ∉ pairs) → ids = []).
Proof.
  intros Hr Hid. eexists _, _, _, _. split; [apply add_all_init |].
  split.
  { unfold build_member_to_parent_index.
    rewrite assert_usable by by right. reflexivity. }
  split; [apply makes_calls_calls |].
  destruct (calls_sort_unique id (flat_map.FlatMap (entries_of pairs)))
    as [Hsorted Hin].
  assert (ascending_exactly
            (calls id (RelationsMapIndex.Index
               (flat_map.sort_unique (flat_map.FlatMap (entries_of pairs)))))
            (λ v, (id, v) ∈ pairs)) as Hexact.
  { split; [done |]. intros v. rewrite Hin.
    by apply elem_of_entries_of_in_range. }
  split; [exact Hexact |]. intros Hnever.
  by apply (ascending_exactly_none _ _ Hexact).
Qed.

(** Likewise [for_each(id)] on the parent to member index visits the
    distinct keys added with the value [id]. *)
Lemma for_each_parent_to_member_in_range NDEBUG pairs id :
  pairs_in_range pairs → is_uint32 id →
  ∃ stash index stash' ids,
    add_all NDEBUG pairs init = Return tt stash
    ∧ build_parent_to_member_index NDEBUG stash = Return index stash'
    ∧ makes_calls id index ids
    ∧ ascending_exactly ids (λ k, (k, id) ∈ pairs).
Proof.
  intros Hr Hid. eexists _, _, _, _. split; [apply add_all_init |].
  split.
  { unfold build_parent_to_member_index.
    rewrite assert_usable by by right. reflexivity. }
  split; [apply makes_calls_calls |].
  destruct (calls_sort_unique id
              (flat_map.flip_in_place (flat_map.FlatMap (entries_of pairs))))
    as [Hsorted Hin].
  split; [done |]. intros k. rewrite Hin.
  cbn [flat_map.flip_in_place flat_map.m_map].
  rewrite elem_of_swap. unfold pairs_in_range in Hr.
  rewrite Forall_forall in Hr. rewrite elem_of_entries_of. split.
  - intros (k0 & v0 & Hin0 & Hk & Hv).
    destruct (Hr _ Hin0) as [Hkr Hvr]. simpl in *.
    rewrite static_cast_uint32_small in Hk by done.
    rewrite !static_cast_uint32_small in Hv by done. by subst.
  - intros Hin0. exists k, id. destruct (Hr _ Hin0) as [Hkr _]. simpl in *.
    by rewrite (static_cast_uint32_small k).
Qed.

(** The worked example: after
    [add(1, 100); add(2, 100); add(1, 100); add(3, 200)] the member to
    parent index has three entries, and [for_each] visits 100 for the keys
    1 and 2, 200 for the key 3, and nothing for a key that was not added. *)
Lemma worked_example :
  ∃ stash index stash',
    add_all false example_pairs init = Return tt stash
    ∧ build_member_to_parent_index false stash = Return index stash'
    ∧ RelationsMapIndex.size index = 3%nat
    ∧ calls 1 index = [100]
    ∧ calls 2 index = [100]
    ∧ calls 3 index = [200]
    ∧ calls 4 index = [].
Proof.
  eexists _, _, _. split; [vm_compute; reflexivity |].
  split; [vm_compute; reflexivity |]. by vm_compute.
Qed.

(** With [NDEBUG] the assertions are compiled out: after a [build_*] call
    the member functions of the stash return as on a stash whose map is
    empty. *)
Lemma use_after_build_ndebug stash index after member_id relation_id :
  build_member_to_parent_index true stash = Return index after →
  m_map after = moved_from
  ∧ add true member_id relation_id after
    = Return tt {| m_map := flat_map.set member_id relation_id moved_from;
                   m_valid := m_valid stash |}
  ∧ size true after = Return 0%nat after.
Proof.
  unfold build_member_to_parent_index, add, size, assert, invalidate.
  by intros [= _ <-].
Qed.

Lemma for_each_member_to_parent_in_range_example :
  ∃ stash index stash' ids,
    add_all false example_pairs init = Return tt stash
    ∧ build_member_to_parent_index false stash = Return index stash'
    ∧ makes_calls 1 index ids
    ∧ ascending_exactly ids (λ v, (1, v) ∈ example_pairs)
    ∧ ((∀ v, (1, v) ∉ example_pairs) → ids = []).
Proof.
  apply (for_each_member_to_parent_in_range false example_pairs 1).
  - repeat constructor; vm_compute; congruence.
  - split; vm_compute; congruence.
Defined.

Lemma for_each_parent_to_member_in_range_example :
  ∃ stash index stash' ids,
    add_all false example_pairs init = Return tt stash
    ∧ build_parent_to_member_index false stash = Return index stash'
    ∧ makes_calls 100 index ids
    ∧ ascending_exactly ids (λ k, (k, 100) ∈ example_pairs).
Proof.
  apply (for_each_parent_to_member_in_range false example_pairs 100).
  - repeat constructor; vm_compute; congruence.
  - split; vm_compute; congruence.
Defined.

Lemma use_after_build_ndebug_example :
  m_map {| m_map := moved_from; m_valid := true |} = moved_from
  ∧ add true 7 200 {| m_map := moved_from; m_valid := true |}
    = Return tt {| m_map := flat_map.set 7 200 moved_from;
                   m_valid := m_valid example_stash |}
  ∧ size true {| m_map := moved_from; m_valid := true |}
    = Return 0%nat {| m_map := moved_from; m_valid := true |}.
Proof.
  apply (use_after_build_ndebug example_stash
           (RelationsMapIndex.Index
              (flat_map.sort_unique (m_map example_stash)))).
  reflexivity.
Defined.

End further_facts.

(** ** The life cycle: accumulate, freeze, query *)

(** C1, as the code has it.  For every sequence of [add(k, v)] calls followed
    by [build_member_to_parent_index], [for_each(id, visitor)] on the index
    calls the visitor once for each distinct narrowed value [v mod 2^32]
    among the pairs added whose key is congruent to [id] modulo [2^32], in
    strictly ascending order, however often a pair was added; for an [id]
    congruent to no added key that is no call at all.  For identifiers below
    [2^32] these are the distinct values added with key [id]. *)
Theorem for_each_member_to_parent (NDEBUG : bool) (pairs : list (Z * Z))
    (id : Z) :
  ∃ stash index stash' ids,
    add_all NDEBUG pairs RelationsMapStash.init
      = RelationsMapStash.Return tt stash
    ∧ RelationsMapStash.build_member_to_parent_index NDEBUG stash
      = RelationsMapStash.Return index stash'
    ∧ makes_calls id index ids
    ∧ ascending_exactly ids
        (λ v, ∃ k0 v0, (k0, v0) ∈ pairs
                ∧ static_cast_uint32 k0 = static_cast_uint32 id
                ∧ static_cast_uint32 v0 = v)
    ∧ ((∀ k0 v0, (k0, v0) ∈ pairs →
          static_cast_uint32 k0 ≠ static_cast_uint32 id) →
       ids = []).
Proof.
  eexists _, _, _, _. split; [apply add_all_init |].
  split.
  { unfold RelationsMapStash.build_member_to_parent_index.
    rewrite assert_usable by by right. reflexivity. }
  split; [apply makes_calls_calls |].
  destruct (calls_sort_unique id (flat_map.FlatMap (entries_of pairs)))
    as [Hsorted Hin].
  assert (ascending_exactly
            (calls id (RelationsMapIndex.Index
               (flat_map.sort_unique (flat_map.FlatMap (entries_of pairs)))))
            (λ v, ∃ k0 v0, (k0, v0) ∈ pairs
                    ∧ static_cast_uint32 k0 = static_cast_uint32 id
                    ∧ static_cast_uint32 v0 = v)) as Hexact.
  { split; [done |]. intros v. rewrite Hin. apply elem_of_entries_of. }
  split; [exact Hexact |]. intros Hnever.
  apply (ascending_exactly_none _ _ Hexact).
  intros v (k0 & v0 & Hpair & Hk & _). by apply (Hnever k0 v0).
Qed.

(** C1, as stated, fails on identifiers of [2^32] and more.  After
    [add(1, 5); add(1, 2^32 + 5)], [for_each(1)] makes the one call with 5:
    the value [2^32 + 5] was added with key 1 and is never visited.  After
    [add(1, 7)], [for_each(2^32 + 1)] calls the visitor with 7, although no
    pair was added with the key [2^32 + 1]. *)
Lemma for_each_member_to_parent_wide_ids :
  (∃ stash index stash',
     add_all false [(1, 5); (1, 4294967301)]
       RelationsMapStash.init = RelationsMapStash.Return tt stash
     ∧ RelationsMapStash.build_member_to_parent_index false stash
       = RelationsMapStash.Return index stash'
     ∧ makes_calls 1 index [5]
     ∧ ¬ ascending_exactly [5] (λ v, (1, v) ∈ [(1, 5); (1, 4294967301)]))
  ∧ (∃ stash index stash',
     add_all false [(1, 7)]
       RelationsMapStash.init = RelationsMapStash.Return tt stash
     ∧ RelationsMapStash.build_member_to_parent_index false stash
       = RelationsMapStash.Return index stash'
     ∧ makes_calls 4294967297 index [7]
     ∧ ¬ ascending_exactly [7] (λ v, (4294967297, v) ∈ [(1, 7)]))
  ∧ is_unsigned_object_id 4294967301
  ∧ is_unsigned_object_id 4294967297.
Proof.
  split; [|split; [|split; vm_compute; split; congruence]].
  - eexists _, _, _. split; [vm_compute; reflexivity |].
    split; [vm_compute; reflexivity |]. split.
    + match goal with |- makes_calls ?id ?index _ =>
        change [5] with (calls id index) end.
      apply makes_calls_calls.
    + intros [_ Hin]. specialize (Hin 4294967301).
      destruct Hin as [_ Hin].
      assert (4294967301 ∈ [5]) as Hbad.
      { apply Hin. apply elem_of_cons. right. apply elem_of_cons. by left. }
      apply list_elem_of_singleton in Hbad. lia.
  - eexists _, _, _. split; [vm_compute; reflexivity |].
    split; [vm_compute; reflexivity |]. split.
    + match goal with |- makes_calls ?id ?index _ =>
        change [7] with (calls id index) end.
      apply makes_calls_calls.
    + intros [_ Hin]. specialize (Hin 7). destruct Hin as [Hin _].
      assert ((4294967297, 7) ∈ [(1, 7)]) as Hbad.
      { apply Hin. apply list_elem_of_singleton. done. }
      apply list_elem_of_singleton in Hbad. discriminate.
Qed.

(** C2, as the code has it.  For every sequence of [add(k, v)] calls, the
    index of [build_parent_to_member_index] is the inverse of the relation
    stored: [for_each(id)] calls the visitor once for each distinct narrowed
    key [k mod 2^32] among the pairs added whose value is congruent to [id]
    modulo [2^32], in ascending order, and with nothing else.  For
    identifiers below [2^32] these are the distinct keys added with value
    [id]. *)
Theorem for_each_parent_to_member (NDEBUG : bool) (pairs : list (Z * Z))
    (id : Z) :
  ∃ stash index stash' ids,
    add_all NDEBUG pairs RelationsMapStash.init
      = RelationsMapStash.Return tt stash
    ∧ RelationsMapStash.build_parent_to_member_index NDEBUG stash
      = RelationsMapStash.Return index stash'
    ∧ makes_calls id index ids
    ∧ ascending_exactly ids
        (λ k, ∃ k0 v0, (k0, v0) ∈ pairs
                ∧ static_cast_uint32 v0 = static_cast_uint32 id
                ∧ static_cast_uint32 k0 = k).
Proof.
  eexists _, _, _, _. split; [apply add_all_init |].
  split.
  { unfold RelationsMapStash.build_parent_to_member_index.
    rewrite assert_usable by by right. reflexivity. }
  split; [apply makes_calls_calls |].
  destruct (calls_sort_unique id
              (flat_map.flip_in_place (flat_map.FlatMap (entries_of pairs))))
    as [Hsorted Hin].
  split; [done |]. intros k. rewrite Hin. cbn [flat_map.flip_in_place flat_map.m_map].
  rewrite elem_of_swap, elem_of_entries_of.
  split; intros (k0 & v0 & ? & ? & ?); by exists k0, v0.
Qed.

(** C2, as stated, fails on identifiers of [2^32] and more.  After
    [add(5, 1); add(2^32 + 5, 1)], [for_each(1)] on the parent to member
    index makes the one call with 5: the key [2^32 + 5] was added paired
    with 1 and is never visited. *)
Lemma for_each_parent_to_member_wide_ids :
  ∃ stash index stash',
    add_all false [(5, 1); (4294967301, 1)]
      RelationsMapStash.init = RelationsMapStash.Return tt stash
    ∧ RelationsMapStash.build_parent_to_member_index false stash
      = RelationsMapStash.Return index stash'
    ∧ makes_calls 1 index [5]
    ∧ ¬ ascending_exactly [5] (λ k, (k, 1) ∈ [(5, 1); (4294967301, 1)])
    ∧ is_unsigned_object_id 4294967301.
Proof.
  eexists _, _, _. split; [vm_compute; reflexivity |].
  split; [vm_compute; reflexivity |].
  split; [|split; [|vm_compute; split; congruence]].
  - match goal with |- makes_calls ?id ?index _ =>
      change [5] with (calls id index) end.
    apply makes_calls_calls.
  - intros [_ Hin]. specialize (Hin 4294967301). destruct Hin as [_ Hin].
    assert (4294967301 ∈ [5]) as Hbad.
    { apply Hin. apply elem_of_cons. right. apply elem_of_cons. by left. }
    apply list_elem_of_singleton in Hbad. lia.
Qed.

(** C3.  For every sequence of [add] calls, the two indexes of
    [build_indexes] are the indexes that [build_member_to_parent_index] and
    [build_parent_to_member_index] build from a stash filled the same way:
    equal as values, hence with the same entries, the same [for_each] calls
    and the same size. *)
Theorem build_indexes_agrees (NDEBUG : bool) (pairs : list (Z * Z)) :
  ∃ stash indexes index_mp index_pm after after_mp after_pm,
    add_all NDEBUG pairs RelationsMapStash.init
      = RelationsMapStash.Return tt stash
    ∧ RelationsMapStash.build_indexes NDEBUG stash
      = RelationsMapStash.Return indexes after
    ∧ RelationsMapStash.build_member_to_parent_index NDEBUG stash
      = RelationsMapStash.Return index_mp after_mp
    ∧ RelationsMapStash.build_parent_to_member_index NDEBUG stash
      = RelationsMapStash.Return index_pm after_pm
    ∧ RelationsMapIndexes.member_to_parent indexes = index_mp
    ∧ RelationsMapIndexes.parent_to_member indexes = index_pm
    ∧ (∀ id, calls id
               (RelationsMapIndexes.member_to_parent indexes)
             = calls id index_mp)
    ∧ (∀ id, calls id
               (RelationsMapIndexes.parent_to_member indexes)
             = calls id index_pm)
    ∧ RelationsMapIndex.size (RelationsMapIndexes.member_to_parent indexes)
      = RelationsMapIndex.size index_mp
    ∧ RelationsMapIndex.size (RelationsMapIndexes.parent_to_member indexes)
      = RelationsMapIndex.size index_pm.
Proof.
  eexists _, _, _, _, _, _, _. split; [apply add_all_init |].
  split.
  { unfold RelationsMapStash.build_indexes.
    rewrite assert_usable by by right.
    cbn [RelationsMapStash.m_map].
    rewrite flip_copy_flip_in_place by apply entries_of_in_range.
    reflexivity. }
  split.
  { unfold RelationsMapStash.build_member_to_parent_index.
    rewrite assert_usable by by right. reflexivity. }
  split.
  { unfold RelationsMapStash.build_parent_to_member_index.
    rewrite assert_usable by by right. reflexivity. }
  by repeat split.
Qed.

(** C5.  For every stash that can be used, the two indexes that
    [build_indexes] returns hold the same number of entries, so [size()] and
    [empty()] of the pair, which ask the member to parent side, answer what
    the parent to member side would. *)
Theorem build_indexes_sizes (NDEBUG : bool) (stash : RelationsMapStash.t) :
  usable NDEBUG stash →
  map_in_range (RelationsMapStash.m_map stash) →
  ∃ indexes after,
    RelationsMapStash.build_indexes NDEBUG stash
      = RelationsMapStash.Return indexes after
    ∧ RelationsMapIndex.size (RelationsMapIndexes.member_to_parent indexes)
      = RelationsMapIndex.size (RelationsMapIndexes.parent_to_member indexes)
    ∧ RelationsMapIndexes.size indexes
      = RelationsMapIndex.size (RelationsMapIndexes.parent_to_member indexes)
    ∧ RelationsMapIndexes.empty indexes
      = RelationsMapIndex.empty (RelationsMapIndexes.parent_to_member indexes).
Proof.
  intros Hu Hr. eexists _, _. split.
  { unfold RelationsMapStash.build_indexes.
    rewrite assert_usable by done.
    rewrite flip_copy_flip_in_place by done. reflexivity. }
  assert (flat_map.size (flat_map.sort_unique (RelationsMapStash.m_map stash))
          = flat_map.size (flat_map.sort_unique
              (flat_map.flip_in_place (RelationsMapStash.m_map stash)))) as Hsize.
  { unfold flat_map.size. by rewrite sort_unique_flip_length. }
  split; [exact Hsize |]. split; [exact Hsize |].
  unfold RelationsMapIndexes.empty, RelationsMapIndex.empty.
  cbn [RelationsMapIndexes.make RelationsMapIndexes.m_member_to_parent
       RelationsMapIndexes.parent_to_member
       RelationsMapIndexes.m_parent_to_member RelationsMapIndex.m_map].
  by rewrite !empty_size, Hsize.
Qed.

Lemma build_indexes_sizes_example :
  ∃ indexes after,
    RelationsMapStash.build_indexes false example_stash
      = RelationsMapStash.Return indexes after
    ∧ RelationsMapIndex.size (RelationsMapIndexes.member_to_parent indexes)
      = RelationsMapIndex.size (RelationsMapIndexes.parent_to_member indexes)
    ∧ RelationsMapIndexes.size indexes
      = RelationsMapIndex.size (RelationsMapIndexes.parent_to_member indexes)
    ∧ RelationsMapIndexes.empty indexes
      = RelationsMapIndex.empty (RelationsMapIndexes.parent_to_member indexes).
Proof.
  apply (build_indexes_sizes false example_stash).
  - right. reflexivity.
  - repeat constructor; vm_compute; congruence.
Defined.

(** C6.  [sort_unique] is idempotent: a second call straight after the
    first leaves the entries as the first left them. *)
Theorem sort_unique_idempotent (m : flat_map.t) :
  flat_map.sort_unique (flat_map.sort_unique m) = flat_map.sort_unique m.
Proof.
  pose proof (sort_unique_sorted m) as Hs.
  unfold flat_map.sort_unique at 1. cbv zeta.
  rewrite sort_of_sorted by by apply strict_sorted_le.
  by rewrite unique_of_strict.
Qed.

(** C4, as the code has it.  For every relation handed to [add_members] on
    a stash that can be used, the entries appended are one entry
    [(referenced_id mod 2^32, relation_id mod 2^32)] for each member whose
    type is [relation], in the order of the members, as by an [add] call for
    each; members of any other type contribute nothing.  For identifiers
    below [2^32] the entry is [(referenced_id, relation_id)]. *)
Theorem add_members_relations (NDEBUG : bool) (relation : osmium.Relation)
    (stash : RelationsMapStash.t) :
  usable NDEBUG stash →
  RelationsMapStash.add_members NDEBUG relation stash
  = RelationsMapStash.Return tt
      {| RelationsMapStash.m_map :=
           flat_map.FlatMap
             (flat_map.m_map (RelationsMapStash.m_map stash)
              ++ ((λ member,
                     {| flat_map.key :=
                          osmium.positive_ref member mod 2 ^ 32;
                        flat_map.value :=
                          osmium.positive_id relation mod 2 ^ 32 |})
                  <$> filter (λ member,
                                osmium.type member = osmium.relation)
                             (osmium.members relation)));
         RelationsMapStash.m_valid := RelationsMapStash.m_valid stash |}
  ∧ RelationsMapStash.add_members NDEBUG relation stash
    = add_all NDEBUG (relation_pairs relation) stash
  ∧ (∀ member, member ∈ osmium.members relation →
       is_uint32 (osmium.positive_ref member)
       ∧ is_uint32 (osmium.positive_id relation) →
       osmium.positive_ref member mod 2 ^ 32 = osmium.positive_ref member
       ∧ osmium.positive_id relation mod 2 ^ 32
         = osmium.positive_id relation).
Proof.
  intros Hu.
  assert (RelationsMapStash.add_members NDEBUG relation stash
          = RelationsMapStash.Return tt
              {| RelationsMapStash.m_map :=
                   flat_map.FlatMap
                     (flat_map.m_map (RelationsMapStash.m_map stash)
                      ++ ((λ member,
                             {| flat_map.key :=
                                  osmium.positive_ref member mod 2 ^ 32;
                                flat_map.value :=
                                  osmium.positive_id relation mod 2 ^ 32 |})
                          <$> filter (λ member,
                                        osmium.type member = osmium.relation)
                                     (osmium.members relation)));
                 RelationsMapStash.m_valid :=
                   RelationsMapStash.m_valid stash |}) as Hadd.
  { unfold RelationsMapStash.add_members. rewrite assert_usable by done.
    do 2 f_equal.
    generalize (osmium.positive_id relation) as rid.
    generalize (RelationsMapStash.m_map stash) as map.
    induction (osmium.members relation) as [|member members IH];
      intros [map] rid; simpl.
    - by rewrite app_nil_r.
    - rewrite filter_cons. destruct (decide _) as [Hrel|Hrel].
      + rewrite IH. unfold flat_map.set. simpl. by rewrite <- app_assoc.
      + by rewrite IH. }
  split; [exact Hadd |]. split.
  - rewrite Hadd, add_all_usable by done. do 3 f_equal.
    unfold entries_of, relation_pairs. by rewrite <- list_fmap_compose.
  - intros member _ [Href Hid]. unfold is_uint32, uint32_modulus in *.
    by rewrite !Z.mod_small.
Qed.

Lemma add_members_relations_example :
  RelationsMapStash.add_members false example_relation RelationsMapStash.init
  = RelationsMapStash.Return tt
      {| RelationsMapStash.m_map :=
           flat_map.FlatMap
             (flat_map.m_map (RelationsMapStash.m_map RelationsMapStash.init)
              ++ ((λ member,
                     {| flat_map.key :=
                          osmium.positive_ref member mod 2 ^ 32;
                        flat_map.value :=
                          osmium.positive_id example_relation mod 2 ^ 32 |})
                  <$> filter (λ member,
                                osmium.type member = osmium.relation)
                             (osmium.members example_relation)));
         RelationsMapStash.m_valid :=
           RelationsMapStash.m_valid RelationsMapStash.init |}
  ∧ RelationsMapStash.add_members false example_relation
      RelationsMapStash.init
    = add_all false (relation_pairs example_relation) RelationsMapStash.init
  ∧ (∀ member, member ∈ osmium.members example_relation →
       is_uint32 (osmium.positive_ref member)
       ∧ is_uint32 (osmium.positive_id example_relation) →
       osmium.positive_ref member mod 2 ^ 32 = osmium.positive_ref member
       ∧ osmium.positive_id example_relation mod 2 ^ 32
         = osmium.positive_id example_relation).
Proof.
  apply (add_members_relations false example_relation RelationsMapStash.init).
  right. reflexivity.
Defined.

(** C4, as stated, fails on identifiers of [2^32] and more.  For the
    relation [2^32 + 3] with the one member (relation, [2^32 + 7]),
    [add_members] on a new stash appends the entry (7, 3), not the pair
    ([2^32 + 7], [2^32 + 3]) of the referenced identifier and the
    identifier of the relation. *)
Lemma add_members_relations_wide_ids :
  RelationsMapStash.add_members false example_wide_relation
    RelationsMapStash.init
  = RelationsMapStash.Return tt
      {| RelationsMapStash.m_map :=
           flat_map.FlatMap [ {| flat_map.key := 7; flat_map.value := 3 |} ];
         RelationsMapStash.m_valid := true |}
  ∧ RelationsMapStash.add_members false example_wide_relation
      RelationsMapStash.init
    ≠ RelationsMapStash.Return tt
        {| RelationsMapStash.m_map :=
             flat_map.FlatMap
               ((λ member,
                   {| flat_map.key := osmium.positive_ref member;
                      flat_map.value :=
                        osmium.positive_id example_wide_relation |})
                <$> filter (λ member, osmium.type member = osmium.relation)
                           (osmium.members example_wide_relation));
           RelationsMapStash.m_valid := true |}
  ∧ is_unsigned_object_id 4294967303
  ∧ is_unsigned_object_id 4294967299.
Proof.
  split; [vm_compute; reflexivity |].
  split; [vm_compute; discriminate |].
  split; vm_compute; split; congruence.
Qed.

(** C7.  For every map, [flip_copy] returns a new map whose entries are the
    entries of the original with key and value swapped, position by
    position, and leaves the original as it was.  The copy is in the order
    of the original, which need not be ascending ([example_map] is in order
    and its copy is not); [sort_unique] on the copy puts it in order. *)
Theorem flip_copy_swaps (m : flat_map.t) :
  map_in_range m →
  (flat_map.flip_copy m).1
  = flat_map.FlatMap (flat_map.swap <$> flat_map.m_map m)
  ∧ (flat_map.flip_copy m).2 = m
  ∧ StronglySorted kv_before
      (flat_map.m_map (flat_map.sort_unique (flat_map.flip_copy m).1))
  ∧ (map_in_range example_map
     ∧ StronglySorted kv_before (flat_map.m_map example_map)
     ∧ ¬ StronglySorted kv_le
           (flat_map.m_map (flat_map.flip_copy example_map).1)).
Proof.
  intros Hr. rewrite flip_copy_flip_in_place by done. cbn [fst snd].
  split; [done |]. split; [done |]. split; [apply sort_unique_sorted |].
  split; [|split].
  - repeat constructor; vm_compute; congruence.
  - repeat constructor.
  - intros Hs. apply StronglySorted_cons in Hs as [Hhd _].
    apply Forall_cons in Hhd as [Hle _]. vm_compute in Hle. discriminate.
Qed.

Lemma flip_copy_swaps_example :
  (flat_map.flip_copy example_map).1
  = flat_map.FlatMap (flat_map.swap <$> flat_map.m_map example_map)
  ∧ (flat_map.flip_copy example_map).2 = example_map
  ∧ StronglySorted kv_before
      (flat_map.m_map
         (flat_map.sort_unique (flat_map.flip_copy example_map).1))
  ∧ (map_in_range example_map
     ∧ StronglySorted kv_before (flat_map.m_map example_map)
     ∧ ¬ StronglySorted kv_le
           (flat_map.m_map (flat_map.flip_copy example_map).1)).
Proof.
  apply (flip_copy_swaps example_map).
  repeat constructor; vm_compute; congruence.
Defined.

(** C8.  In a build without [NDEBUG], once one of the [build_*] member
    functions has returned on a stash, the stash was valid before the call
    and is marked invalid by it, and every member function called on it
    afterwards ([add], [add_members], [empty], [size] and the four
    [build_*]) stops in its failed assertion instead of returning. *)
Theorem use_after_build (stash after : RelationsMapStash.t) :
  freezes stash after →
  RelationsMapStash.m_valid stash = true
  ∧ RelationsMapStash.m_valid after = false
  ∧ (∀ member_id relation_id,
       fails (RelationsMapStash.add false member_id relation_id after))
  ∧ (∀ relation, fails (RelationsMapStash.add_members false relation after))
  ∧ fails (RelationsMapStash.empty false after)
  ∧ fails (RelationsMapStash.size false after)
  ∧ fails (RelationsMapStash.build_index false after)
  ∧ fails (RelationsMapStash.build_member_to_parent_index false after)
  ∧ fails (RelationsMapStash.build_parent_to_member_index false after)
  ∧ fails (RelationsMapStash.build_indexes false after).
Proof.
  intros Hfreeze.
  assert (RelationsMapStash.m_valid stash = true
          ∧ RelationsMapStash.m_valid after = false) as [Hbefore Hafter].
  { destruct Hfreeze as [[i H]|[[i H]|[[i H]|[i H]]]]; revert H;
      unfold RelationsMapStash.build_index,
        RelationsMapStash.build_member_to_parent_index,
        RelationsMapStash.build_parent_to_member_index,
        RelationsMapStash.build_indexes, RelationsMapStash.assert;
      destruct (RelationsMapStash.m_valid stash); try discriminate;
      try destruct (flat_map.flip_copy _);
      intros [= _ <-]; done. }
  split; [done |]. split; [done |].
  unfold fails, RelationsMapStash.add, RelationsMapStash.add_members,
    RelationsMapStash.empty, RelationsMapStash.size,
    RelationsMapStash.build_index,
    RelationsMapStash.build_member_to_parent_index,
    RelationsMapStash.build_parent_to_member_index,
    RelationsMapStash.build_indexes.
  repeat split; intros; rewrite assert_consumed by done; by eexists.
Qed.

Lemma use_after_build_example :
  RelationsMapStash.m_valid example_stash = true
  ∧ RelationsMapStash.m_valid example_consumed = false
  ∧ (∀ member_id relation_id,
       fails (RelationsMapStash.add false member_id relation_id
                example_consumed))
  ∧ (∀ relation,
       fails (RelationsMapStash.add_members false relation example_consumed))
  ∧ fails (RelationsMapStash.empty false example_consumed)
  ∧ fails (RelationsMapStash.size false example_consumed)
  ∧ fails (RelationsMapStash.build_index false example_consumed)
  ∧ fails (RelationsMapStash.build_member_to_parent_index false
             example_consumed)
  ∧ fails (RelationsMapStash.build_parent_to_member_index false
             example_consumed)
  ∧ fails (RelationsMapStash.build_indexes false example_consumed).
Proof.
  apply (use_after_build example_stash example_consumed).
  right. left. eexists. vm_compute. reflexivity.
Defined.

(** C9.  For every call [add(member_id, parent_id)] on a stash that can be
    used, the entry stored is [(member_id mod 2^32, parent_id mod 2^32)]:
    nothing checks the conversion to the 32-bit fields, so identifiers that
    agree modulo [2^32] leave the stash in the same state. *)
Theorem add_narrows (NDEBUG : bool) (stash : RelationsMapStash.t)
    (member_id parent_id : Z) :
  usable NDEBUG stash →
  RelationsMapStash.add NDEBUG member_id parent_id stash
  = RelationsMapStash.Return tt
      {| RelationsMapStash.m_map :=
           flat_map.FlatMap
             (flat_map.m_map (RelationsMapStash.m_map stash)
              ++ [ {| flat_map.key := member_id mod 2 ^ 32;
                      flat_map.value := parent_id mod 2 ^ 32 |} ]);
         RelationsMapStash.m_valid := RelationsMapStash.m_valid stash |}
  ∧ ∀ member_id' parent_id',
      member_id' mod 2 ^ 32 = member_id mod 2 ^ 32 →
      parent_id' mod 2 ^ 32 = parent_id mod 2 ^ 32 →
      RelationsMapStash.add NDEBUG member_id' parent_id' stash
      = RelationsMapStash.add NDEBUG member_id parent_id stash.
Proof.
  intros Hu. split.
  - by rewrite add_usable.
  - intros member_id' parent_id' Hm Hp. rewrite !add_usable by done.
    unfold flat_map.set, flat_map.kv_pair_of, static_cast_uint32,
      uint32_modulus. by rewrite Hm, Hp.
Qed.

Lemma add_narrows_example :
  RelationsMapStash.add false 4294967303 3 example_stash
  = RelationsMapStash.Return tt
      {| RelationsMapStash.m_map :=
           flat_map.FlatMap
             (flat_map.m_map (RelationsMapStash.m_map example_stash)
              ++ [ {| flat_map.key := 4294967303 mod 2 ^ 32;
                      flat_map.value := 3 mod 2 ^ 32 |} ]);
         RelationsMapStash.m_valid :=
           RelationsMapStash.m_valid example_stash |}
  ∧ ∀ member_id' parent_id',
      member_id' mod 2 ^ 32 = 4294967303 mod 2 ^ 32 →
      parent_id' mod 2 ^ 32 = 3 mod 2 ^ 32 →
      RelationsMapStash.add false member_id' parent_id' example_stash
      = RelationsMapStash.add false 4294967303 3 example_stash.
Proof.
  apply (add_narrows false example_stash 4294967303 3).
  right. reflexivity.
Defined.

(** C10.  The deprecated member functions do what their replacements do:
    [for_each_parent(id, f)] makes the calls of [for_each(id, f)], in the
    same order, on every index; and on every stash [build_index] returns
    the index that [build_member_to_parent_index] returns and leaves the
    stash in the same state, or both stop in their assertion. *)
Theorem deprecated_agree :
  (∀ (S : Type) (id : Z) (func : Z → S → S) (index : RelationsMapIndex.t)
     (st : S),
     RelationsMapIndex.for_each_parent id func index st
     = RelationsMapIndex.for_each id func index st)
  ∧ (∀ (NDEBUG : bool) (stash : RelationsMapStash.t),
       outcome (RelationsMapStash.build_index NDEBUG stash)
       = outcome
           (RelationsMapStash.build_member_to_parent_index NDEBUG stash)).
Proof.
  split; [done |]. intros NDEBUG stash.
  unfold RelationsMapStash.build_index,
    RelationsMapStash.build_member_to_parent_index, RelationsMapStash.assert.
  by destruct NDEBUG, (RelationsMapStash.m_valid stash).
Qed.

(** ** Further properties of the map *)
Section flat_map_properties.
Import flat_map.

(** [operator<] is a strict total order on entries, and [operator==] is
    both its equivalence (neither entry before the other) and equality of
    the two fields: what [std::sort], [std::unique] and [std::equal_range]
    need of them. *)
Theorem kv_order_strict_total (a b c : kv_pair) :
  kv_lt a a = false
  ∧ (kv_lt a b = true → kv_lt b c = true → kv_lt a c = true)
  ∧ (kv_lt a b = true → kv_lt b a = false)
  ∧ (kv_eq a b = true ↔ kv_lt a b = false ∧ kv_lt b a = false)
  ∧ (kv_eq a b = true ↔ a = b).
Proof.
  assert (∀ x y, kv_lt x y = false ↔ kv_le y x) as Hfalse by done.
  split; [apply Hfalse, kv_le_spec; lia |].
  split; [rewrite !kv_lt_spec; lia |].
  split; [rewrite Hfalse, kv_lt_spec, kv_le_spec; lia |].
  split; [|apply kv_eq_spec].
  rewrite kv_eq_spec, !Hfalse. split.
  - intros ->. split; apply kv_le_spec; lia.
  - intros [Hba Hab]. by apply (anti_symm kv_le).
Qed.

(** Two maps with the same entries as sets are sorted and deduplicated to
    the same map. *)
Lemma sort_unique_ext m1 m2 :
  (∀ x, x ∈ m_map m1 ↔ x ∈ m_map m2) → sort_unique m1 = sort_unique m2.
Proof.
  intros Hsame.
  pose proof (sort_unique_sorted m1) as Hs1.
  pose proof (sort_unique_sorted m2) as Hs2.
  assert (m_map (sort_unique m1) = m_map (sort_unique m2)) as Heq.
  { apply (StronglySorted_unique kv_le); [by apply strict_sorted_le.. |].
    apply NoDup_Permutation; [by apply strict_sorted_NoDup.. |].
    intros x. by rewrite !sort_unique_elem_of. }
  simpl in Heq. unfold sort_unique. by rewrite Heq.
Qed.

Lemma sort_unique_size_le m : (size (sort_unique m) ≤ size m)%nat.
Proof.
  unfold size. apply submseteq_length, NoDup_submseteq.
  - apply strict_sorted_NoDup, sort_unique_sorted.
  - intros x. by rewrite sort_unique_elem_of.
Qed.

(** [sort_unique] leaves the entries in strictly ascending order of
    (key, value), so without duplicates; they are the entries the map had,
    as a set, and never more of them than before. *)
Theorem sort_unique_spec (m : t) :
  StronglySorted kv_before (m_map (sort_unique m))
  ∧ NoDup (m_map (sort_unique m))
  ∧ (∀ x, x ∈ m_map (sort_unique m) ↔ x ∈ m_map m)
  ∧ (size (sort_unique m) ≤ size m)%nat.
Proof.
  pose proof (sort_unique_sorted m) as Hs.
  pose proof (strict_sorted_NoDup _ Hs) as Hnd.
  split; [done |]. split; [done |]. split; [apply sort_unique_elem_of |].
  apply sort_unique_size_le.
Qed.

Lemma flip_in_place_involutive m : flip_in_place (flip_in_place m) = m.
Proof.
  destruct m as [l]. unfold flip_in_place. simpl. f_equal.
  rewrite <- list_fmap_compose. rewrite <- (list_fmap_id l) at 2.
  apply list_fmap_ext. intros _ p _. apply swap_involutive.
Qed.

(** Flipping twice gives the map back.  Deduplicating before a flip changes
    nothing of the sorted flipped map, so the parent to member map can be
    had from the member to parent map, and the inverse of the inverse is the
    sorted map itself. *)
Theorem flip_sort_unique_compose (m : t) :
  flip_in_place (flip_in_place m) = m
  ∧ sort_unique (flip_in_place (sort_unique m))
    = sort_unique (flip_in_place m)
  ∧ sort_unique (flip_in_place (sort_unique (flip_in_place m)))
    = sort_unique m.
Proof.
  assert (∀ m', sort_unique (flip_in_place (sort_unique m'))
                = sort_unique (flip_in_place m')) as Hdedup.
  { intros m'. apply sort_unique_ext. intros [k v].
    cbn [flip_in_place m_map]. by rewrite !elem_of_swap, sort_unique_elem_of. }
  split; [apply flip_in_place_involutive |]. split; [apply Hdedup |].
  by rewrite Hdedup, flip_in_place_involutive.
Qed.

(** On a map sorted by [operator<], [get] returns two positions in order
    and inside the map; the number of entries between them is the number of
    entries with the key looked up, narrowed to 32 bits; and when no entry
    has that key, the two positions are equal: an empty range. *)
Theorem get_bounds (key_id : Z) (m : t) :
  StronglySorted kv_le (m_map m) →
  ((get key_id m).1 ≤ (get key_id m).2 ≤ size m)%nat
  ∧ ((get key_id m).2 - (get key_id m).1)%nat
    = length (filter (λ p, key p = static_cast_uint32 key_id) (m_map m))
  ∧ ((∀ p, p ∈ m_map m → key p ≠ static_cast_uint32 key_id) →
     (get key_id m).1 = (get key_id m).2).
Proof.
  intros Hs. destruct (get_spec key_id m Hs) as [Hle _].
  pose proof (range_get_filter key_id m Hs) as Hrange.
  assert (((get key_id m).2 - (get key_id m).1)%nat
          = length (filter (λ p, key p = static_cast_uint32 key_id)
                           (m_map m))) as Hlen.
  { rewrite <- Hrange. unfold range. rewrite length_take, length_drop.
    lia. }
  split; [done |]. split; [done |]. intros Hnone.
  rewrite filter_none in Hlen; [cbn [length] in Hlen; lia |].
  apply Forall_forall. intros p Hp. by apply Hnone.
Qed.

Lemma get_bounds_example :
  ((get 2 example_map).1 ≤ (get 2 example_map).2 ≤ size example_map)%nat
  ∧ ((get 2 example_map).2 - (get 2 example_map).1)%nat
    = length (filter (λ p, key p = static_cast_uint32 2) (m_map example_map))
  ∧ ((∀ p, p ∈ m_map example_map → key p ≠ static_cast_uint32 2) →
     (get 2 example_map).1 = (get 2 example_map).2).
Proof.
  apply (get_bounds 2 example_map).
  repeat constructor.
Defined.

End flat_map_properties.

(** ** Further properties of the stash and the indexes *)
Section life_cycle_properties.
Import RelationsMapStash.

Lemma build_member_to_parent_index_usable NDEBUG stash :
  usable NDEBUG stash →
  build_member_to_parent_index NDEBUG stash
  = Return (RelationsMapIndex.Index (flat_map.sort_unique (m_map stash)))
           {| m_map := moved_from;
              m_valid := invalidate NDEBUG (m_valid stash) |}.
Proof.
  intros Hu. unfold build_member_to_parent_index. by rewrite assert_usable.
Qed.

Lemma build_parent_to_member_index_usable NDEBUG stash :
  usable NDEBUG stash →
  build_parent_to_member_index NDEBUG stash
  = Return (RelationsMapIndex.Index
              (flat_map.sort_unique (flat_map.flip_in_place (m_map stash))))
           {| m_map := moved_from;
              m_valid := invalidate NDEBUG (m_valid stash) |}.
Proof.
  intros Hu. unfold build_parent_to_member_index. by rewrite assert_usable.
Qed.

Lemma build_indexes_usable NDEBUG stash :
  usable NDEBUG stash → map_in_range (m_map stash) →
  build_indexes NDEBUG stash
  = Return (RelationsMapIndexes.make
              (flat_map.sort_unique (m_map stash))
              (flat_map.sort_unique (flat_map.flip_in_place (m_map stash))))
           {| m_map := moved_from;
              m_valid := invalidate NDEBUG (m_valid stash) |}.
Proof.
  intros Hu Hr. unfold build_indexes.
  by rewrite assert_usable, flip_copy_flip_in_place.
Qed.

Lemma add_members_usable NDEBUG relation stash :
  usable NDEBUG stash →
  add_members NDEBUG relation stash
  = Return tt
      {| m_map := flat_map.FlatMap
                    (flat_map.m_map (m_map stash)
                     ++ entries_of (relation_pairs relation));
         m_valid := m_valid stash |}.
Proof.
  intros Hu. unfold add_members. rewrite assert_usable by done.
  do 2 f_equal. unfold relation_pairs.
  generalize (osmium.positive_id relation) as rid.
  generalize (m_map stash) as map.
  induction (osmium.members relation) as [|member members IH];
    intros [map] rid; simpl.
  - by rewrite app_nil_r.
  - rewrite filter_cons. destruct (decide _) as [Hrel|Hrel].
    + rewrite IH. unfold flat_map.set. simpl. by rewrite <- app_assoc.
    + by rewrite IH.
Qed.

Lemma calls_sort_unique_elem_of id m v :
  v ∈ calls id (RelationsMapIndex.Index (flat_map.sort_unique m))
  ↔ {| flat_map.key := static_cast_uint32 id; flat_map.value := v |}
      ∈ flat_map.m_map m.
Proof. by destruct (calls_sort_unique id m) as [_ Hin]. Qed.

Lemma entries_of_same_set pairs1 pairs2 :
  (∀ p, p ∈ pairs1 ↔ p ∈ pairs2) →
  ∀ x, x ∈ entries_of pairs1 ↔ x ∈ entries_of pairs2.
Proof.
  intros Hsame x. unfold entries_of. rewrite !list_elem_of_fmap.
  split; intros (p & -> & Hp); exists p; split; try done; by apply Hsame.
Qed.

(** The index built depends on the set of pairs added only, not on the
    order of the [add] calls nor on how often a pair was added: two
    sequences of calls with the same pairs build the same member to parent
    index, the same parent to member index and the same pair of indexes. *)
Theorem build_order_independent (NDEBUG : bool)
    (pairs1 pairs2 : list (Z * Z)) :
  (∀ p, p ∈ pairs1 ↔ p ∈ pairs2) →
  (∃ index,
     builds_from NDEBUG build_member_to_parent_index pairs1 index
     ∧ builds_from NDEBUG build_member_to_parent_index pairs2 index)
  ∧ (∃ index,
       builds_from NDEBUG build_parent_to_member_index pairs1 index
       ∧ builds_from NDEBUG build_parent_to_member_index pairs2 index)
  ∧ (∃ indexes,
       builds_from NDEBUG build_indexes pairs1 indexes
       ∧ builds_from NDEBUG build_indexes pairs2 indexes).
Proof.
  intros Hsame. pose proof (entries_of_same_set _ _ Hsame) as Hentries.
  assert (flat_map.sort_unique (flat_map.FlatMap (entries_of pairs1))
          = flat_map.sort_unique (flat_map.FlatMap (entries_of pairs2)))
    as Hmp by by apply sort_unique_ext.
  assert (flat_map.sort_unique
            (flat_map.flip_in_place (flat_map.FlatMap (entries_of pairs1)))
          = flat_map.sort_unique
              (flat_map.flip_in_place (flat_map.FlatMap (entries_of pairs2))))
    as Hpm.
  { apply sort_unique_ext. intros [k v]. cbn [flat_map.flip_in_place
      flat_map.m_map]. by rewrite !elem_of_swap. }
  assert (∀ pairs, usable NDEBUG
            {| m_map := flat_map.FlatMap (entries_of pairs);
               m_valid := true |}) as Hu by (by right).
  split; [|split].
  - eexists. split.
    + eexists _, _. split; [apply add_all_init |].
      by apply build_member_to_parent_index_usable.
    + eexists _, _. split; [apply add_all_init |].
      rewrite build_member_to_parent_index_usable by done.
      cbn [m_map]. by rewrite <- Hmp.
  - eexists. split.
    + eexists _, _. split; [apply add_all_init |].
      by apply build_parent_to_member_index_usable.
    + eexists _, _. split; [apply add_all_init |].
      rewrite build_parent_to_member_index_usable by done.
      cbn [m_map]. by rewrite <- Hpm.
  - eexists. split.
    + eexists _, _. split; [apply add_all_init |].
      apply build_indexes_usable; [done | apply entries_of_in_range].
    + eexists _, _. split; [apply add_all_init |].
      rewrite build_indexes_usable by (done || apply entries_of_in_range).
      cbn [m_map]. by rewrite <- Hmp, <- Hpm.
Qed.

Lemma build_order_independent_example :
  (∃ index,
     builds_from false build_member_to_parent_index example_pairs index
     ∧ builds_from false build_member_to_parent_index
         [(3, 200); (2, 100); (1, 100)] index)
  ∧ (∃ index,
       builds_from false build_parent_to_member_index example_pairs index
       ∧ builds_from false build_parent_to_member_index
           [(3, 200); (2, 100); (1, 100)] index)
  ∧ (∃ indexes,
       builds_from false build_indexes example_pairs indexes
       ∧ builds_from false build_indexes
           [(3, 200); (2, 100); (1, 100)] indexes).
Proof.
  apply (build_order_independent false example_pairs
           [(3, 200); (2, 100); (1, 100)]).
  intros p. unfold example_pairs. rewrite !elem_of_cons, !elem_of_nil. tauto.
Defined.

(** The two indexes of [build_indexes] are inverse to each other: an
    identifier [v] is visited by [for_each(k)] on the member to parent index
    exactly when [k] is visited by [for_each(v)] on the parent to member
    index (identifiers as stored, that is narrowed to 32 bits). *)
Theorem indexes_inverse (NDEBUG : bool) (stash : t) :
  usable NDEBUG stash → map_in_range (m_map stash) →
  ∃ indexes after,
    build_indexes NDEBUG stash = Return indexes after
    ∧ ∀ k v,
        static_cast_uint32 v
          ∈ calls k (RelationsMapIndexes.member_to_parent indexes)
        ↔ static_cast_uint32 k
            ∈ calls v (RelationsMapIndexes.parent_to_member indexes).
Proof.
  intros Hu Hr. eexists _, _. split; [by apply build_indexes_usable |].
  intros k v.
  cbn [RelationsMapIndexes.member_to_parent
       RelationsMapIndexes.parent_to_member RelationsMapIndexes.make
       RelationsMapIndexes.m_member_to_parent
       RelationsMapIndexes.m_parent_to_member].
  rewrite !calls_sort_unique_elem_of.
  cbn [flat_map.flip_in_place flat_map.m_map]. by rewrite elem_of_swap.
Qed.

Lemma indexes_inverse_example :
  ∃ indexes after,
    build_indexes false example_stash = Return indexes after
    ∧ ∀ k v,
        static_cast_uint32 v
          ∈ calls k (RelationsMapIndexes.member_to_parent indexes)
        ↔ static_cast_uint32 k
            ∈ calls v (RelationsMapIndexes.parent_to_member indexes).
Proof.
  apply (indexes_inverse false example_stash).
  - right. reflexivity.
  - repeat constructor; vm_compute; congruence.
Defined.



(** The stash counts every call: after the [add] calls of [pairs] its
    [size()] has grown by the number of calls, duplicates included, and
    [empty()] tells whether that number is still zero; [add_members] makes
    it grow by the number of members that are relations. *)
Theorem stash_size_counts (NDEBUG : bool) (stash : t)
    (pairs : list (Z * Z)) (relation : osmium.Relation) :
  usable NDEBUG stash →
  (∃ after,
     add_all NDEBUG pairs stash = Return tt after
     ∧ size NDEBUG after
       = Return (flat_map.size (m_map stash) + length pairs)%nat after
     ∧ empty NDEBUG after
       = Return (bool_decide
                   ((flat_map.size (m_map stash) + length pairs)%nat = 0%nat))
                after)
  ∧ (∃ after,
       add_members NDEBUG relation stash = Return tt after
       ∧ size NDEBUG after
         = Return (flat_map.size (m_map stash)
                   + length (relation_members relation))%nat after).
Proof.
  intros Hu. split.
  - eexists. split; [by apply add_all_usable |].
    unfold size, empty. rewrite !assert_usable by done.
    rewrite empty_size. unfold flat_map.size. cbn [m_map flat_map.m_map].
    rewrite length_app. unfold entries_of. by rewrite length_fmap.
  - eexists. split; [by apply add_members_usable |].
    unfold size. rewrite assert_usable by done.
    unfold flat_map.size. cbn [m_map flat_map.m_map].
    rewrite length_app. unfold entries_of, relation_pairs, relation_members.
    by rewrite !length_fmap.
Qed.

Lemma stash_size_counts_example :
  (∃ after,
     add_all false example_pairs init = Return tt after
     ∧ size false after
       = Return (flat_map.size (m_map init) + length example_pairs)%nat after
     ∧ empty false after
       = Return (bool_decide
                   ((flat_map.size (m_map init) + length example_pairs)%nat
                    = 0%nat))
                after)
  ∧ (∃ after,
       add_members false example_relation init = Return tt after
       ∧ size false after
         = Return (flat_map.size (m_map init)
                   + length (relation_members example_relation))%nat after).
Proof.
  apply (stash_size_counts false init example_pairs example_relation).
  right. reflexivity.
Defined.

(** The index counts distinct entries: [size()] of the index built is at
    most the number of entries of the stash, and equal to it exactly when
    the stash held no entry twice; the index is empty exactly when the stash
    was. *)
Theorem index_size_bound (NDEBUG : bool) (stash : t) :
  usable NDEBUG stash →
  ∃ index after,
    build_member_to_parent_index NDEBUG stash = Return index after
    ∧ (RelationsMapIndex.size index ≤ flat_map.size (m_map stash))%nat
    ∧ (RelationsMapIndex.size index = flat_map.size (m_map stash)
       ↔ NoDup (flat_map.m_map (m_map stash)))
    ∧ RelationsMapIndex.empty index = flat_map.empty (m_map stash).
Proof.
  intros Hu. eexists _, _.
  split; [by apply build_member_to_parent_index_usable |].
  unfold RelationsMapIndex.size, RelationsMapIndex.empty.
  cbn [RelationsMapIndex.m_map].
  pose proof (sort_unique_size_le (m_map stash)) as Hle.
  pose proof (strict_sorted_NoDup _ (sort_unique_sorted (m_map stash))) as Hnd.
  pose proof (sort_unique_elem_of (m_map stash)) as Hin.
  split; [done |]. split.
  - unfold flat_map.size in *. split.
    + intros Hlen. rewrite <- (submseteq_length_Permutation _ _
        (NoDup_submseteq _ _ Hnd (λ x, proj1 (Hin x)))); [done | lia].
    + intros Hstash. apply Permutation_length, NoDup_Permutation; done.
  - unfold flat_map.empty. clear Hle Hnd. revert Hin.
    generalize (flat_map.m_map (flat_map.sort_unique (m_map stash))) as sorted.
    generalize (flat_map.m_map (m_map stash)) as entries.
    intros [|x entries] [|y sorted] Hin; try done.
    + destruct (Hin y) as [Hy _].
      apply elem_of_nil in Hy; [done | apply elem_of_cons; by left].
    + destruct (Hin x) as [_ Hx].
      apply elem_of_nil in Hx; [done | apply elem_of_cons; by left].
Qed.

Lemma index_size_bound_example :
  ∃ index after,
    build_member_to_parent_index false example_stash = Return index after
    ∧ (RelationsMapIndex.size index
       ≤ flat_map.size (m_map example_stash))%nat
    ∧ (RelationsMapIndex.size index = flat_map.size (m_map example_stash)
       ↔ NoDup (flat_map.m_map (m_map example_stash)))
    ∧ RelationsMapIndex.empty index = flat_map.empty (m_map example_stash).
Proof.
  apply (index_size_bound false example_stash).
  right. reflexivity.
Defined.

Lemma strictly_ascending_constant (ids : list Z) (c : Z) :
  StronglySorted Z.lt ids → (∀ v, v ∈ ids → v = c) → ids = [] ∨ ids = [c].
Proof.
  intros Hs Hc. destruct ids as [|a [|b ids]]; [by left | right | exfalso].
  - f_equal. apply Hc, elem_of_cons. by left.
  - apply StronglySorted_cons in Hs as [Hab _].
    apply Forall_cons in Hab as [Hab _].
    rewrite (Hc a), (Hc b) in Hab; [lia | |]; rewrite !elem_of_cons; auto.
Qed.

(** Looking up after [add_members]: on the member to parent index built
    from a new stash filled by [add_members(relation)], [for_each(id)] makes
    the one call with the identifier of the relation when [id] is the
    reference of a member that is a relation, and no call otherwise
    (identifiers narrowed to 32 bits). *)
Theorem add_members_lookup (NDEBUG : bool) (relation : osmium.Relation)
    (id : Z) :
  ∃ stash index after ids,
    add_members NDEBUG relation init = Return tt stash
    ∧ build_member_to_parent_index NDEBUG stash = Return index after
    ∧ makes_calls id index ids
    ∧ ((∃ member, member ∈ relation_members relation
          ∧ static_cast_uint32 (osmium.positive_ref member)
            = static_cast_uint32 id) →
       ids = [static_cast_uint32 (osmium.positive_id relation)])
    ∧ ((∀ member, member ∈ relation_members relation →
          static_cast_uint32 (osmium.positive_ref member)
          ≠ static_cast_uint32 id) →
       ids = []).
Proof.
  eexists _, _, _, _.
  split; [apply add_members_usable, usable_init |].
  split; [by apply build_member_to_parent_index_usable; right |].
  split; [apply makes_calls_calls |].
  cbn [m_map init flat_map.init flat_map.m_map app].
  set (m := flat_map.FlatMap (entries_of (relation_pairs relation))).
  destruct (calls_sort_unique id m) as [Hsorted Hin].
  assert (∀ v, v ∈ calls id (RelationsMapIndex.Index (flat_map.sort_unique m))
    ↔ v = static_cast_uint32 (osmium.positive_id relation)
      ∧ ∃ member, member ∈ relation_members relation
          ∧ static_cast_uint32 (osmium.positive_ref member)
            = static_cast_uint32 id) as Hcalls.
  { intros v. rewrite Hin. unfold m. cbn [flat_map.m_map].
    rewrite elem_of_entries_of. unfold relation_pairs. split.
    - intros (k0 & v0 & Hpair & Hk & Hv).
      apply list_elem_of_fmap in Hpair as (member & [= -> ->] & Hmember).
      split; [done |]. by exists member.
    - intros [-> (member & Hmember & Hk)].
      exists (osmium.positive_ref member), (osmium.positive_id relation).
      split; [|done]. apply list_elem_of_fmap. by exists member. }
  destruct (strictly_ascending_constant _
              (static_cast_uint32 (osmium.positive_id relation)) Hsorted)
    as [Hnil | Hone].
  { intros v Hv. by apply Hcalls in Hv as [-> _]. }
  - split; [|done]. intros Hsome. exfalso.
    assert (static_cast_uint32 (osmium.positive_id relation)
              ∈ calls id (RelationsMapIndex.Index (flat_map.sort_unique m)))
      as Hv by by apply Hcalls.
    rewrite Hnil in Hv. by apply elem_of_nil in Hv.
  - split; [done |]. intros Hnone. exfalso.
    assert (static_cast_uint32 (osmium.positive_id relation)
              ∈ calls id (RelationsMapIndex.Index (flat_map.sort_unique m)))
      as Hv by (rewrite Hone; apply elem_of_cons; by left).
    apply Hcalls in Hv as [_ (member & Hmember & Hk)].
    by apply (Hnone member).
Qed.

(** With [NDEBUG] nothing stops a call on a stash that a [build_*] call has
    emptied: [size()] is 0, [empty()] is true, [add] starts a new map, and
    every [build_*] returns an empty index. *)
Theorem use_after_build_release (stash after : t) :
  freezes_ndebug stash after →
  m_map after = moved_from
  ∧ size true after = Return 0%nat after
  ∧ empty true after = Return true after
  ∧ (∀ member_id relation_id, ∃ after',
       add true member_id relation_id after = Return tt after'
       ∧ flat_map.m_map (m_map after')
         = [flat_map.kv_pair_of member_id relation_id])
  ∧ (∃ index after',
       build_member_to_parent_index true after = Return index after'
       ∧ RelationsMapIndex.size index = 0%nat
       ∧ ∀ id, calls id index = [])
  ∧ (∃ index after',
       build_parent_to_member_index true after = Return index after'
       ∧ RelationsMapIndex.size index = 0%nat
       ∧ ∀ id, calls id index = [])
  ∧ (∃ indexes after',
       build_indexes true after = Return indexes after'
       ∧ RelationsMapIndexes.size indexes = 0%nat
       ∧ ∀ id,
           calls id (RelationsMapIndexes.member_to_parent indexes) = []
           ∧ calls id (RelationsMapIndexes.parent_to_member indexes) = []).
Proof.
  intros Hfreeze.
  assert (m_map after = moved_from) as Hmap.
  { destruct Hfreeze as [[i H]|[[i H]|[[i H]|[i H]]]]; revert H;
      unfold build_index, build_member_to_parent_index,
        build_parent_to_member_index, build_indexes, assert;
      try destruct (flat_map.flip_copy _);
      by intros [= _ <-]. }
  destruct after as [map valid]. simpl in Hmap. subst map.
  split; [done |]. split; [done |]. split; [done |].
  split; [intros; by eexists |].
  split; [by eexists _, _ |]. split; [by eexists _, _ |]. by eexists _, _.
Qed.

Lemma use_after_build_release_example :
  m_map {| m_map := moved_from; m_valid := true |} = moved_from
  ∧ size true {| m_map := moved_from; m_valid := true |}
    = Return 0%nat {| m_map := moved_from; m_valid := true |}
  ∧ empty true {| m_map := moved_from; m_valid := true |}
    = Return true {| m_map := moved_from; m_valid := true |}
  ∧ (∀ member_id relation_id, ∃ after',
       add true member_id relation_id
         {| m_map := moved_from; m_valid := true |} = Return tt after'
       ∧ flat_map.m_map (m_map after')
         = [flat_map.kv_pair_of member_id relation_id])
  ∧ (∃ index after',
       build_member_to_parent_index true
         {| m_map := moved_from; m_valid := true |} = Return index after'
       ∧ RelationsMapIndex.size index = 0%nat
       ∧ ∀ id, calls id index = [])
  ∧ (∃ index after',
       build_parent_to_member_index true
         {| m_map := moved_from; m_valid := true |} = Return index after'
       ∧ RelationsMapIndex.size index = 0%nat
       ∧ ∀ id, calls id index = [])
  ∧ (∃ indexes after',
       build_indexes true
         {| m_map := moved_from; m_valid := true |} = Return indexes after'
       ∧ RelationsMapIndexes.size indexes = 0%nat
       ∧ ∀ id,
           calls id (RelationsMapIndexes.member_to_parent indexes) = []
           ∧ calls id (RelationsMapIndexes.parent_to_member indexes) = []).
Proof.
  apply (use_after_build_release example_stash).
  right. right. right. eexists. vm_compute. reflexivity.
Defined.

(** Moving is not consuming.  The stash made by the move constructor holds
    what the source held, so every [build_*] on it returns what it would
    have returned on the source; the source is left with an empty map and
    the [m_valid] it had, so it can still be used: its [size()] is 0 and an
    [add] starts a new map.  An index that has been moved from is empty. *)
Theorem moves_leave_empty (NDEBUG : bool) (other : t)
    (index : RelationsMapIndex.t) :
  usable NDEBUG other →
  (move other).1 = other
  ∧ usable NDEBUG (move other).2
  ∧ size NDEBUG (move other).2 = Return 0%nat (move other).2
  ∧ (∀ member_id relation_id, ∃ after,
       add NDEBUG member_id relation_id (move other).2 = Return tt after
       ∧ flat_map.m_map (m_map after)
         = [flat_map.kv_pair_of member_id relation_id])
  ∧ (RelationsMapIndex.move index).1 = index
  ∧ RelationsMapIndex.size (RelationsMapIndex.move index).2 = 0%nat
  ∧ ∀ id, calls id (RelationsMapIndex.move index).2 = [].
Proof.
  intros Hu.
  assert (usable NDEBUG (move other).2) as Hu' by done.
  split; [by destruct other |]. split; [done |].
  split; [unfold size; by rewrite assert_usable |].
  split; [|by destruct index as [[l]]].
  intros member_id relation_id. eexists. by rewrite add_usable.
Qed.

Lemma moves_leave_empty_example :
  (move example_stash).1 = example_stash
  ∧ usable false (move example_stash).2
  ∧ size false (move example_stash).2 = Return 0%nat (move example_stash).2
  ∧ (∀ member_id relation_id, ∃ after,
       add false member_id relation_id (move example_stash).2
         = Return tt after
       ∧ flat_map.m_map (m_map after)
         = [flat_map.kv_pair_of member_id relation_id])
  ∧ (RelationsMapIndex.move (RelationsMapIndex.Index example_map)).1
    = RelationsMapIndex.Index example_map
  ∧ RelationsMapIndex.size
      (RelationsMapIndex.move (RelationsMapIndex.Index example_map)).2
    = 0%nat
  ∧ ∀ id,
      calls id (RelationsMapIndex.move (RelationsMapIndex.Index example_map)).2
      = [].
Proof.
  apply (moves_leave_empty false example_stash
           (RelationsMapIndex.Index example_map)).
  right. reflexivity.
Defined.

End life_cycle_properties.
